(** * Adaptive segmentation engine: messages, turns, volleys, sessions

    A shallow embedding of the segmentation core of the analysis library
    ([segmentation/index.ts], [segmentation/kneedle.ts], the volley builder
    and [utils/time]) together with the properties its specification states,
    and of the code around it ([utils/stats], the gap statistics, sessions,
    response times and reciprocity) with further properties of that code.

    Conventions of the embedding.
    - A JavaScript [number] that holds a time gap, a timeout or a percentile
      is an exact rational ([Q]); an identifier or an array index is an
      integer ([Z], [nat]). Sums and quotients are exact here where the code
      rounds them: what is stated below of a mean or of a share is what
      rounding keeps (its sign, the bounds 0 and 1), not its exact value.
    - A [Date] is its time value: the milliseconds since the epoch ([Z]).
      A message carries in [sent_at] the time value that [parseDate] yields
      for its timestamp string (the input contract asks for a parseable
      timestamp), so [parseDate] is the identity here.
    - A timestamp that does not parse gives the Invalid Date, on which
      [toISOString] throws. The volley builder, the one place where that
      shows, is modelled a second time in [Raw], over [Date] objects that
      may be invalid; on valid dates the two builders agree
      ([buildVolley_on_valid_dates]).
    - A function that can throw returns a [Result].
    - The digest function of the [js-sha256] package is a parameter of the
      volley builder. *)

From Stdlib Require Import ZArith QArith Qround Qabs List String Ascii Bool Lia.
From Stdlib Require Import Permutation Sorted Decimal DecimalString DecimalZ.
Import ListNotations.

Local Open Scope Z_scope.

(** ** Errors *)

Inductive JsError : Type :=
| Error (message : string)
| TypeError (message : string)
| RangeError (message : string).

Inductive Result (A : Type) : Type :=
| Ok (value : A)
| Throw (e : JsError).

Arguments Ok {A} value.
Arguments Throw {A} e.

Definition bind {A B : Type} (r : Result A) (k : A -> Result B) : Result B :=
  match r with
  | Ok a => k a
  | Throw e => Throw e
  end.

Notation "'let*' x ':=' r 'in' k" := (bind r (fun x => k))
  (at level 10, x name, r at level 100, k at level 200).

(** ** The JavaScript built-ins the engine relies on *)

Module JS.

Section ArraySort.
Context {A : Type}.
(** [cmp_le a b] says that the comparator puts [a] no later than [b]
    (comparator result [<= 0]). *)
Variable cmp_le : A -> A -> bool.

Fixpoint insert (x : A) (l : list A) : list A :=
  match l with
  | [] => [x]
  | y :: l' => if cmp_le x y then x :: y :: l' else y :: insert x l'
  end.

(** [Array.prototype.sort]: a stable sort; an element stays in front of
    the later elements it compares equal to. *)
Definition sort (l : list A) : list A := fold_right insert [] l.
End ArraySort.

(** [Number::toString] on an integer value: decimal digits, with a leading
    minus sign for a negative one (the form JavaScript prints for every
    integer of magnitude below 10^21, identifiers among them). *)
Definition numberToString (n : Z) : string :=
  NilEmpty.string_of_int (Z.to_int n).

(** The comparator of [sort()] called without an argument: both elements are
    converted to strings and compared by code units. *)
Definition defaultCompare_le (a b : Z) : bool :=
  String.leb (numberToString a) (numberToString b).

(** The comparator [(a, b) => a - b] on rationals. *)
Definition numericCompare_le (a b : Q) : bool := Qle_bool (a - b) 0.

(** [Array.from(new Set(xs))]: the distinct elements in order of first
    occurrence. *)
Fixpoint uniq_from (seen : list Z) (xs : list Z) : list Z :=
  match xs with
  | [] => []
  | x :: xs' =>
      if existsb (Z.eqb x) seen then uniq_from seen xs'
      else x :: uniq_from (x :: seen) xs'
  end.

Definition arrayFromSet (xs : list Z) : list Z := uniq_from [] xs.

(** [padStart(width, "0")] of the decimal digits of a natural number. *)
Fixpoint zeros (k : nat) : string :=
  match k with
  | O => EmptyString
  | S k' => String "0" (zeros k')
  end.

Definition digits (n : Z) : string := NilEmpty.string_of_uint (N.to_uint (Z.to_N n)).

Definition pad (width : nat) (n : Z) : string :=
  let d := digits n in
  (zeros (width - String.length d) ++ d)%string.

(** The civil date of a day number (days since 1970-01-01), proleptic
    Gregorian calendar: (year, month, day of month). *)
Definition civilFromDays (days : Z) : Z * Z * Z :=
  let z := days + 719468 in
  let era := z / 146097 in
  let doe := z - era * 146097 in
  let yoe := (doe - doe / 1460 + doe / 36524 - doe / 146096) / 365 in
  let y := yoe + era * 400 in
  let doy := doe - (365 * yoe + yoe / 4 - yoe / 100) in
  let mp := (5 * doy + 2) / 153 in
  let d := doy - (153 * mp + 2) / 5 + 1 in
  let m := if mp <? 10 then mp + 3 else mp - 9 in
  (if m <=? 2 then y + 1 else y, m, d).

Definition msPerDay : Z := 86400000.

(** The time-of-day part of [toISOString]: [HH:mm:ss.sssZ]. *)
Definition isoTime (t : Z) : string :=
  let ms := t mod msPerDay in
  (pad 2 (ms / 3600000) ++ ":" ++ pad 2 (ms / 60000 mod 60) ++ ":"
   ++ pad 2 (ms / 1000 mod 60) ++ "." ++ pad 3 (ms mod 1000) ++ "Z")%string.

(** The year of [toISOString]: four digits for the years 0 to 9999, a sign
    and six digits otherwise. *)
Definition isoYear (y : Z) : string :=
  if (0 <=? y) && (y <=? 9999) then pad 4 y
  else if y <? 0 then ("-" ++ pad 6 (- y))%string
  else ("+" ++ pad 6 y)%string.

Definition isoDate (t : Z) : string :=
  let '(y, m, d) := civilFromDays (t / msPerDay) in
  (isoYear y ++ "-" ++ pad 2 m ++ "-" ++ pad 2 d)%string.

(** [Date.prototype.toISOString]: [YYYY-MM-DDTHH:mm:ss.sssZ], in UTC. *)
Definition toISOString (t : Z) : string :=
  (isoDate t ++ "T" ++ isoTime t)%string.

(** [String.prototype.split] with a one-character separator. *)
Fixpoint split_acc (sep : ascii) (cur : string) (s : string) : list string :=
  match s with
  | EmptyString => [cur]
  | String c s' =>
      if Ascii.eqb c sep then cur :: split_acc sep EmptyString s'
      else split_acc sep (cur ++ String c EmptyString)%string s'
  end.

Definition split (sep : ascii) (s : string) : list string :=
  split_acc sep EmptyString s.

(** [Array.prototype.join]. *)
Definition join (sep : string) (xs : list string) : string :=
  String.concat sep xs.

(** [String.prototype.substring(0, n)]. *)
Definition substring (from to : nat) (s : string) : string :=
  String.substring from (to - from) s.

End JS.

(** ** Data model ([types.ts]) *)

Record Message : Type := {
  ID : Z;
  chat_id : Z;
  from_id : Z;
  content : string;
  sent_at : Z;
  message_id : string;
  key_version : Z;
  CreatedAt : string;
  UpdatedAt : string
}.

Module Turn.
Record t : Type := {
  messages : list Message;
  sender_id : Z;
  start_time : Z;
  end_time : Z
}.
End Turn.

Module Volley.
Record t : Type := {
  id : string;
  turns : list Turn.t;
  participants : list Z;
  start_time : Z;
  end_time : Z;
  depth : nat;
  message_count : nat;
  pivot_text : string
}.
End Volley.

Module Session.
Record t : Type := {
  volleys : list Volley.t;
  participants : list Z;
  start_time : Z;
  end_time : Z;
  duration_minutes : Q
}.
End Session.

(** ** [utils/time] *)

Definition parseDate (date : Z) : Z := date.

Definition getGapSeconds (date1 date2 : Z) : Q :=
  Qabs (inject_Z (date2 - date1)) / 1000.

(** The comparison [a > b] on numbers. *)
Definition Qgt_bool (a b : Q) : bool := negb (Qle_bool a b).

(** ** The knee-point threshold estimator ([segmentation/kneedle.ts]) *)

(** The running maximum of the knee scan starts at [-Infinity]. *)
Inductive Extended : Type :=
| NegInfinity
| Finite (q : Q).

Definition gt_extended (x : Q) (m : Extended) : bool :=
  match m with
  | NegInfinity => true
  | Finite q => Qgt_bool x q
  end.

(** The scan [for (let i = 1; i < n - 1; i++)] over the differences; the
    state is [(maxDiff, kneeIndex)]. *)
Fixpoint kneeScan (differences : list Q) (indices : list nat)
    (maxDiff : Extended) (kneeIndex : nat) : nat :=
  match indices with
  | [] => kneeIndex
  | i :: rest =>
      let diff := Qabs (nth i differences 0%Q) in
      if gt_extended diff maxDiff
      then kneeScan differences rest (Finite diff) i
      else kneeScan differences rest maxDiff kneeIndex
  end.

Definition findKneePoint (values : list Q) : nat :=
  let n := List.length values in
  if (n <? 3)%nat then (n / 2)%nat
  else
    let xNorm :=
      map (fun i => inject_Z (Z.of_nat i) / inject_Z (Z.of_nat (n - 1)))%Q
          (seq 0 n) in
    let yMin := nth 0%nat values 0%Q in
    let yMax := nth (n - 1)%nat values 0%Q in
    let yRange := (yMax - yMin)%Q in
    if Qeq_bool yRange 0 then (n / 2)%nat
    else
      let yNorm := map (fun y => (y - yMin) / yRange)%Q values in
      let differences :=
        map (fun i => nth i xNorm 0 - nth i yNorm 0)%Q (seq 0 n) in
      kneeScan differences (seq 1 (n - 2)) NegInfinity 0%nat.

Definition getPercentileTimeout (gaps : list Q) (percentile : Q) : Q :=
  if (List.length gaps =? 0)%nat then 300%Q
  else
    let sorted := JS.sort JS.numericCompare_le gaps in
    let n := Z.of_nat (List.length sorted) in
    let index := Qceiling ((percentile / 100) * inject_Z n) - 1 in
    nth (Z.to_nat (Z.max 0 (Z.min index (n - 1)))) sorted 0%Q.

Definition getAdaptiveTimeout (gaps : list Q) (fallbackPercentile : Q) : Q :=
  if (List.length gaps <? 5)%nat
  then getPercentileTimeout gaps fallbackPercentile
  else
    let sorted := JS.sort JS.numericCompare_le gaps in
    let kneeIndex := findKneePoint sorted in
    let kneeValue := nth kneeIndex sorted 0%Q in
    if (0 <? kneeIndex)%nat && (kneeIndex <? List.length sorted - 1)%nat
    then kneeValue
    else getPercentileTimeout sorted fallbackPercentile.

Record Timeouts : Type := {
  turn_timeout : Q;
  threadlet_timeout : Q;
  session_timeout : Q
}.

Definition calculateTimeouts (gaps : list Q) : Timeouts :=
  if (List.length gaps =? 0)%nat
  then {| turn_timeout := 180; threadlet_timeout := 1800;
          session_timeout := 14400 |}
  else
    let sorted := JS.sort JS.numericCompare_le gaps in
    {| turn_timeout := getPercentileTimeout sorted 70;
       threadlet_timeout := getAdaptiveTimeout sorted 85;
       session_timeout := getPercentileTimeout sorted 95 |}.

(** ** The volley builder and the three phases *)

Definition newline : string := String (ascii_of_nat 10) EmptyString.

Section Engine.

(** The hex digest of the [js-sha256] package. *)
Variable sha256 : string -> string.

(** [participantIds.sort()] sorts the caller's array in place: the first
    component is that array after the call, the second the identifier. *)
Definition createVolleyId (startTime endTime : Z) (participantIds : list Z)
  : list Z * string :=
  let sortedIds := JS.sort JS.defaultCompare_le participantIds in
  let data :=
    (JS.toISOString startTime ++ "-" ++ JS.toISOString endTime ++ "-"
     ++ JS.join "," (map JS.numberToString sortedIds))%string in
  (sortedIds, JS.substring 0 16 (sha256 data)).

(** One step of the depth loop; the state is [(depth, lastSender)]. *)
Definition depthStep (st : nat * option Z) (turn : Turn.t) : nat * option Z :=
  let '(depth, lastSender) := st in
  let depth' :=
    match lastSender with
    | Some s => if negb (Turn.sender_id turn =? s) then S depth else depth
    | None => depth
    end in
  (depth', Some (Turn.sender_id turn)).

(** One line of the pivot text. [participants[0]] is [undefined] on an
    empty array and then equals no sender; [split('T')] of an ISO string
    always has an element of index 1 ([split_toISOString] below). *)
Definition pivotLine (participants : list Z) (msg : Message) : string :=
  let time := parseDate (sent_at msg) in
  let timeStr :=
    JS.substring 0 5 (nth 1%nat (JS.split "T" (JS.toISOString time)) EmptyString) in
  let sender :=
    match participants with
    | p0 :: _ => if from_id msg =? p0 then "Me"%string else "Them"%string
    | [] => "Them"%string
    end in
  (timeStr ++ " - " ++ sender ++ ": " ++ content msg)%string.

Definition buildVolley (turns : list Turn.t) : Result Volley.t :=
  match turns with
  | [] => Throw (Error "Cannot build volley from empty turns array")
  | firstTurn :: _ =>
      let messages := flat_map Turn.messages turns in
      let participants :=
        JS.sort JS.defaultCompare_le
          (JS.arrayFromSet (map Turn.sender_id turns)) in
      let startTime := Turn.start_time firstTurn in
      let endTime := Turn.end_time (last turns firstTurn) in
      let depth := fst (fold_left depthStep turns (O, None)) in
      let pivotText := JS.join newline (map (pivotLine participants) messages) in
      let '(participants, id) := createVolleyId startTime endTime participants in
      Ok {| Volley.id := id;
            Volley.turns := turns;
            Volley.participants := participants;
            Volley.start_time := startTime;
            Volley.end_time := endTime;
            Volley.depth := depth;
            Volley.message_count := List.length messages;
            Volley.pivot_text := pivotText |}
  end.

(** [volleys[0]] of an empty array is [undefined], and reading a field of
    it throws. *)
Definition buildSession (volleys : list Volley.t) : Result Session.t :=
  match volleys with
  | [] => Throw (TypeError "Cannot read properties of undefined")
  | firstVolley :: _ =>
      let startTime := Volley.start_time firstVolley in
      let endTime := Volley.end_time (last volleys firstVolley) in
      let participants :=
        JS.sort JS.defaultCompare_le
          (JS.arrayFromSet (flat_map Volley.participants volleys)) in
      let durationMinutes := (getGapSeconds startTime endTime / 60)%Q in
      Ok {| Session.volleys := volleys;
            Session.participants := participants;
            Session.start_time := startTime;
            Session.end_time := endTime;
            Session.duration_minutes := durationMinutes |}
  end.

(** The loop of [groupVolleysIntoSessions] from index 1 on; [prevVolley]
    is [volleys[i - 1]]. *)
Fixpoint sessionsLoop (sessionTimeout : Q) (prevVolley : Volley.t)
    (rest : list Volley.t) (sessions : list Session.t)
    (currentSession : list Volley.t) : Result (list Session.t) :=
  match rest with
  | [] =>
      if (0 <? List.length currentSession)%nat
      then let* s := buildSession currentSession in Ok (sessions ++ [s])
      else Ok sessions
  | currVolley :: rest' =>
      let gap :=
        getGapSeconds (Volley.end_time prevVolley) (Volley.start_time currVolley) in
      if Qgt_bool gap sessionTimeout
      then
        let* s := buildSession currentSession in
        sessionsLoop sessionTimeout currVolley rest' (sessions ++ [s]) [currVolley]
      else
        sessionsLoop sessionTimeout currVolley rest' sessions
          (currentSession ++ [currVolley])
  end.

Definition groupVolleysIntoSessions (volleys : list Volley.t)
    (sessionTimeout : Q) : Result (list Session.t) :=
  match volleys with
  | [] => Ok []
  | v0 :: rest => sessionsLoop sessionTimeout v0 rest [] [v0]
  end.

(** ** The three phases ([segmentation/index.ts]) *)

(** An optional numeric argument; [!x] holds when it is absent or zero. *)
Definition falsy (x : option Q) : bool :=
  match x with
  | None => true
  | Some q => Qeq_bool q 0
  end.

(** [if (!x) { x = derived; }]: the value of [x] after the guard. *)
Definition afterGuard (x : option Q) (derived : Q) : Q :=
  match x with
  | Some q => if falsy x then derived else q
  | None => derived
  end.

(** [messages[0]] of an empty array is [undefined], and reading a field
    of it throws. *)
Definition createTurn (messages : list Message) (senderId : Z) : Result Turn.t :=
  match messages with
  | [] => Throw (TypeError "Cannot read properties of undefined")
  | firstMsg :: _ =>
      let startTime := parseDate (sent_at firstMsg) in
      let endTime := parseDate (sent_at (last messages firstMsg)) in
      Ok {| Turn.messages := messages;
            Turn.sender_id := senderId;
            Turn.start_time := startTime;
            Turn.end_time := endTime |}
  end.

(** The gap loops [for (let i = 1; i < xs.length; i++)]: the gap from the
    end of [xs[i - 1]] to the start of [xs[i]]. *)
Fixpoint gapsLoop {A : Type} (endOf startOf : A -> Z) (prev : A)
    (rest : list A) : list Q :=
  match rest with
  | [] => []
  | curr :: rest' =>
      getGapSeconds (endOf prev) (startOf curr)
        :: gapsLoop endOf startOf curr rest'
  end.

Definition consecutiveGaps {A : Type} (endOf startOf : A -> Z)
    (xs : list A) : list Q :=
  match xs with
  | [] => []
  | x0 :: rest => gapsLoop endOf startOf x0 rest
  end.

Definition sortByTimestamp (messages : list Message) : list Message :=
  JS.sort (fun a b => parseDate (sent_at a) - parseDate (sent_at b) <=? 0)
    messages.

(** The value of [turnTimeout] after the guard [if (!turnTimeout)]. *)
Definition resolveTurnTimeout (sorted : list Message)
    (turnTimeout : option Q) : Q :=
  afterGuard turnTimeout
    (turn_timeout
       (calculateTimeouts
          (consecutiveGaps (fun m => parseDate (sent_at m))
             (fun m => parseDate (sent_at m)) sorted))).

(** The scan of [messagesToTurns] from index 1 on; [prevMsg] is
    [sorted[i - 1]]. *)
Fixpoint turnsLoop (turnTimeout : Q) (prevMsg : Message)
    (rest : list Message) (turns : list Turn.t)
    (currentTurn : list Message) (currentSender : Z)
  : Result (list Turn.t) :=
  match rest with
  | [] =>
      if (0 <? List.length currentTurn)%nat
      then let* t := createTurn currentTurn currentSender in Ok (turns ++ [t])
      else Ok turns
  | currMsg :: rest' =>
      let gap :=
        getGapSeconds (parseDate (sent_at prevMsg)) (parseDate (sent_at currMsg)) in
      let senderChanged := negb (from_id currMsg =? currentSender) in
      let timeoutExceeded := Qgt_bool gap turnTimeout in
      if senderChanged || timeoutExceeded
      then
        let* t := createTurn currentTurn currentSender in
        turnsLoop turnTimeout currMsg rest' (turns ++ [t]) [currMsg]
          (from_id currMsg)
      else
        turnsLoop turnTimeout currMsg rest' turns (currentTurn ++ [currMsg])
          currentSender
  end.

Definition messagesToTurns (messages : list Message)
    (turnTimeout : option Q) : Result (list Turn.t) :=
  match sortByTimestamp messages with
  | [] => Ok []
  | m0 :: rest =>
      let turnTimeout := resolveTurnTimeout (m0 :: rest) turnTimeout in
      turnsLoop turnTimeout m0 rest [] [m0] (from_id m0)
  end.

(** The value of [threadletTimeout] after the guard. *)
Definition resolveThreadletTimeout (turns : list Turn.t)
    (threadletTimeout : option Q) : Q :=
  afterGuard threadletTimeout
    (threadlet_timeout
       (calculateTimeouts
          (consecutiveGaps Turn.end_time Turn.start_time turns))).

(** The loop of [turnsToVolleys] from index 1 on. *)
Fixpoint volleysLoop (threadletTimeout : Q) (prevTurn : Turn.t)
    (rest : list Turn.t) (volleys : list Volley.t)
    (currentVolley : list Turn.t) : Result (list Volley.t) :=
  match rest with
  | [] =>
      if (0 <? List.length currentVolley)%nat
      then let* v := buildVolley currentVolley in Ok (volleys ++ [v])
      else Ok volleys
  | currTurn :: rest' =>
      let gap :=
        getGapSeconds (Turn.end_time prevTurn) (Turn.start_time currTurn) in
      if Qgt_bool gap threadletTimeout
      then
        let* v := buildVolley currentVolley in
        volleysLoop threadletTimeout currTurn rest' (volleys ++ [v]) [currTurn]
      else
        volleysLoop threadletTimeout currTurn rest' volleys
          (currentVolley ++ [currTurn])
  end.

Definition turnsToVolleys (turns : list Turn.t)
    (threadletTimeout : option Q) : Result (list Volley.t) :=
  match turns with
  | [] => Ok []
  | t0 :: rest =>
      let threadletTimeout := resolveThreadletTimeout turns threadletTimeout in
      volleysLoop threadletTimeout t0 rest [] [t0]
  end.

(** The value of [sessionTimeout] after the guard. *)
Definition resolveSessionTimeout (volleys : list Volley.t)
    (sessionTimeout : option Q) : Q :=
  afterGuard sessionTimeout
    (session_timeout
       (calculateTimeouts
          (consecutiveGaps Volley.end_time Volley.start_time volleys))).

Definition volleysToSessions (volleys : list Volley.t)
    (sessionTimeout : option Q) : Result (list Session.t) :=
  match volleys with
  | [] => Ok []
  | _ :: _ =>
      groupVolleysIntoSessions volleys
        (resolveSessionTimeout volleys sessionTimeout)
  end.

Definition getVolleys (messages : list Message) : Result (list Volley.t) :=
  match messages with
  | [] => Ok []
  | _ :: _ =>
      let* turns := messagesToTurns messages None in
      turnsToVolleys turns None
  end.

End Engine.

(** The message constructor of the test suite. *)
Definition createMessage (id fromId chatId : Z) (content : string)
    (sentAt : Z) : Message :=
  {| ID := id; chat_id := chatId; from_id := fromId; content := content;
     sent_at := sentAt;
     message_id := ("msg_" ++ JS.numberToString id)%string; key_version := 1;
     CreatedAt := JS.toISOString sentAt; UpdatedAt := JS.toISOString sentAt |}.

(** ** The volley builder on dates that may be invalid

    [new Date(s)] of a timestamp [s] that does not parse is the Invalid Date
    (a [Date] whose time value is [NaN]), and [toISOString] throws a
    [RangeError] on it. Here the volley builder is modelled on [Date]
    objects as they come, valid or not: a message carries in [sent_at] the
    [Date] that [new Date] makes of its timestamp string, a turn the [Date]
    objects of its [start_time] and [end_time] fields. *)

Module Raw.

Inductive Date : Type :=
| ValidDate (time : Z)
| InvalidDate.

Record Message : Type := {
  ID : Z;
  chat_id : Z;
  from_id : Z;
  content : string;
  sent_at : Date;
  message_id : string;
  key_version : Z;
  CreatedAt : string;
  UpdatedAt : string
}.

Module Turn.
Record t : Type := {
  messages : list Message;
  sender_id : Z;
  start_time : Date;
  end_time : Date
}.
End Turn.

Module Volley.
Record t : Type := {
  id : string;
  turns : list Turn.t;
  participants : list Z;
  start_time : Date;
  end_time : Date;
  depth : nat;
  message_count : nat;
  pivot_text : string
}.
End Volley.

(** [parseDate] returns a [Date] object as it is. *)
Definition parseDate (date : Date) : Date := date.

(** [Date.prototype.toISOString]: a [RangeError] on the Invalid Date (the
    message is the one of V8). *)
Definition toISOString (date : Date) : Result string :=
  match date with
  | ValidDate time => Ok (JS.toISOString time)
  | InvalidDate => Throw (RangeError "Invalid time value")
  end.

(** [Array.prototype.map] with a callback that can throw: the elements are
    visited in order and the first throw ends the call. *)
Fixpoint mapThrowing {A B : Type} (f : A -> Result B) (xs : list A)
  : Result (list B) :=
  match xs with
  | [] => Ok []
  | x :: xs' =>
      let* y := f x in
      let* ys := mapThrowing f xs' in
      Ok (y :: ys)
  end.

Section Builder.

Variable sha256 : string -> string.

(** The template literal evaluates [startTime.toISOString()], then
    [endTime.toISOString()], then sorts and joins the identifiers. *)
Definition createVolleyId (startTime endTime : Date) (participantIds : list Z)
  : Result (list Z * string) :=
  let* startIso := toISOString startTime in
  let* endIso := toISOString endTime in
  let sortedIds := JS.sort JS.defaultCompare_le participantIds in
  let data :=
    (startIso ++ "-" ++ endIso ++ "-"
     ++ JS.join "," (map JS.numberToString sortedIds))%string in
  Ok (sortedIds, JS.substring 0 16 (sha256 data)).

Definition depthStep (st : nat * option Z) (turn : Turn.t) : nat * option Z :=
  let '(depth, lastSender) := st in
  let depth' :=
    match lastSender with
    | Some s => if negb (Turn.sender_id turn =? s) then S depth else depth
    | None => depth
    end in
  (depth', Some (Turn.sender_id turn)).

Definition pivotLine (participants : list Z) (msg : Message) : Result string :=
  let time := parseDate (sent_at msg) in
  let* iso := toISOString time in
  let timeStr := JS.substring 0 5 (nth 1%nat (JS.split "T" iso) EmptyString) in
  let sender :=
    match participants with
    | p0 :: _ => if from_id msg =? p0 then "Me"%string else "Them"%string
    | [] => "Them"%string
    end in
  Ok (timeStr ++ " - " ++ sender ++ ": " ++ content msg)%string.

(** The guard on the empty array comes first, then the pivot text (which
    reads the timestamp of every message, in order), then the identifier
    (which reads the start and the end of the volley). *)
Definition buildVolley (turns : list Turn.t) : Result Volley.t :=
  match turns with
  | [] => Throw (Error "Cannot build volley from empty turns array")
  | firstTurn :: _ =>
      let messages := flat_map Turn.messages turns in
      let participants :=
        JS.sort JS.defaultCompare_le
          (JS.arrayFromSet (map Turn.sender_id turns)) in
      let startTime := Turn.start_time firstTurn in
      let endTime := Turn.end_time (last turns firstTurn) in
      let depth := fst (fold_left depthStep turns (O, None)) in
      let* lines := mapThrowing (pivotLine participants) messages in
      let pivotText := JS.join newline lines in
      let* r := createVolleyId startTime endTime participants in
      let '(participants, id) := r in
      Ok {| Volley.id := id;
            Volley.turns := turns;
            Volley.participants := participants;
            Volley.start_time := startTime;
            Volley.end_time := endTime;
            Volley.depth := depth;
            Volley.message_count := List.length messages;
            Volley.pivot_text := pivotText |}
  end.

End Builder.

End Raw.

(** ** More of [utils/time], and [utils/stats] *)

Definition getGapDays (date1 date2 : Z) : Q :=
  getGapSeconds date1 date2 / (24 * 60 * 60).

Definition average (values : list Q) : Q :=
  if (List.length values =? 0)%nat then 0%Q
  else
    let sum := fold_left (fun acc val => acc + val)%Q values 0%Q in
    (sum / inject_Z (Z.of_nat (List.length values)))%Q.

Definition median (values : list Q) : Q :=
  if (List.length values =? 0)%nat then 0%Q
  else
    let sorted := JS.sort JS.numericCompare_le values in
    let mid := (List.length sorted / 2)%nat in
    if (List.length sorted mod 2 =? 0)%nat
    then ((nth (mid - 1) sorted 0 + nth mid sorted 0) / 2)%Q
    else nth mid sorted 0%Q.

(** A [Map<T, number>]: the entries in insertion order; [set] on a key
    that is present replaces its value in place, on a new key appends. *)
Section CountMap.
Context {T : Type}.
Variable T_eq_dec : forall x y : T, {x = y} + {x <> y}.

Fixpoint mapGet (m : list (T * nat)) (key : T) : option nat :=
  match m with
  | [] => None
  | (k, v) :: m' => if T_eq_dec k key then Some v else mapGet m' key
  end.

Fixpoint mapSet (m : list (T * nat)) (key : T) (value : nat) : list (T * nat) :=
  match m with
  | [] => [(key, value)]
  | (k, v) :: m' =>
      if T_eq_dec k key then (k, value) :: m'
      else (k, v) :: mapSet m' key value
  end.

(** [counts.get(item) || 0]. *)
Definition getOrZero (m : list (T * nat)) (key : T) : nat :=
  match mapGet m key with
  | Some v => v
  | None => O
  end.

(** The body of the counting loop:
    [counts.set(item, (counts.get(item) || 0) + 1)]. *)
Definition countStep (counts : list (T * nat)) (item : T) : list (T * nat) :=
  mapSet counts item (getOrZero counts item + 1).

Definition countOccurrences (items : list T) : list (T * nat) :=
  fold_left countStep items [].

Record TopItem : Type := {
  ti_item : T;
  ti_count : nat;
  ti_percentage : Q
}.

(** [slice(0, n)]: a negative [n] counts from the end. *)
Definition sliceFromStart {A : Type} (n : Z) (l : list A) : list A :=
  let len := Z.of_nat (List.length l) in
  let final := if n <? 0 then Z.max (len + n) 0 else Z.min n len in
  firstn (Z.to_nat final) l.

Definition getTopItems (items : list T) (n : Z) : list TopItem :=
  let counts := countOccurrences items in
  let total := List.length items in
  let sorted :=
    JS.sort (fun a b => (Z.of_nat (ti_count b) - Z.of_nat (ti_count a) <=? 0))
      (map (fun '(item, count) =>
              {| ti_item := item;
                 ti_count := count;
                 ti_percentage :=
                   if (0 <? total)%nat
                   then (inject_Z (Z.of_nat count)
                           / inject_Z (Z.of_nat total) * 100)%Q
                   else 0%Q |})
           counts) in
  sliceFromStart n sorted.

End CountMap.

(** ** Statistics over messages and volleys ([statistical/statistics.ts]) *)

Record ResponseTimeStats : Type := {
  avg_hours : Q;
  median_hours : Q;
  fastest_hours : Q;
  slowest_hours : Q
}.

Definition noResponseTimes : ResponseTimeStats :=
  {| avg_hours := 0; median_hours := 0; fastest_hours := 0;
     slowest_hours := 0 |}.

(** The loop of [getResponseTimes] from index 1 on: the hours from a
    message of the user to the next message when that is not the user's. *)
Fixpoint responseLoop (userId : Z) (prev : Message) (rest : list Message)
    : list Q :=
  match rest with
  | [] => []
  | curr :: rest' =>
      if (from_id prev =? userId) && negb (from_id curr =? userId)
      then
        let seconds :=
          getGapSeconds (parseDate (sent_at prev)) (parseDate (sent_at curr)) in
        let hours := (seconds / 3600)%Q in
        hours :: responseLoop userId curr rest'
      else responseLoop userId curr rest'
  end.

Definition getResponseTimes (messages : list Message) (userId : Z)
    : ResponseTimeStats :=
  if (List.length messages <? 2)%nat then noResponseTimes
  else
    let sorted := sortByTimestamp messages in
    let responseTimes :=
      match sorted with
      | [] => []
      | m0 :: rest => responseLoop userId m0 rest
      end in
    if (List.length responseTimes =? 0)%nat then noResponseTimes
    else
      let sortedTimes := JS.sort JS.numericCompare_le responseTimes in
      let avg :=
        (fold_left (fun sum t => sum + t)%Q responseTimes 0%Q
         / inject_Z (Z.of_nat (List.length responseTimes)))%Q in
      let median := nth (List.length sortedTimes / 2)%nat sortedTimes 0%Q in
      {| avg_hours := avg;
         median_hours := median;
         fastest_hours := nth 0%nat sortedTimes 0%Q;
         slowest_hours := nth (List.length sortedTimes - 1)%nat sortedTimes 0%Q |}.

Record ReciprocityStats : Type := {
  initiation_balance : Q;
  message_balance : Q;
  avg_turn_length_me : Q;
  avg_turn_length_them : Q
}.

Definition countMessages (turns : list Turn.t) : nat :=
  fold_left (fun sum t => (sum + List.length (Turn.messages t))%nat) turns O.

Definition ofNat (n : nat) : Q := inject_Z (Z.of_nat n).

(** [volley.turns[0]] of a volley without turns is [undefined], and reading
    its sender throws. *)
Definition getVolleyReciprocity (volley : Volley.t) (userId : Z)
    : Result ReciprocityStats :=
  let myMessages :=
    filter (fun t => Turn.sender_id t =? userId) (Volley.turns volley) in
  let theirMessages :=
    filter (fun t => negb (Turn.sender_id t =? userId)) (Volley.turns volley) in
  let myCount := countMessages myMessages in
  let theirCount := countMessages theirMessages in
  let total := (myCount + theirCount)%nat in
  match Volley.turns volley with
  | [] => Throw (TypeError "Cannot read properties of undefined")
  | firstTurn :: _ =>
      let initiatedByMe := Turn.sender_id firstTurn =? userId in
      let messageBalance :=
        if (0 <? total)%nat then (ofNat myCount / ofNat total)%Q
        else (1 # 2)%Q in
      let initiationBalance := if initiatedByMe then 1%Q else 0%Q in
      let avgTurnLengthMe :=
        if (0 <? List.length myMessages)%nat
        then (ofNat myCount / ofNat (List.length myMessages))%Q
        else 0%Q in
      let avgTurnLengthThem :=
        if (0 <? List.length theirMessages)%nat
        then (ofNat theirCount / ofNat (List.length theirMessages))%Q
        else 0%Q in
      Ok {| initiation_balance := initiationBalance;
            message_balance := messageBalance;
            avg_turn_length_me := avgTurnLengthMe;
            avg_turn_length_them := avgTurnLengthThem |}
  end.

(** ** The full pipeline ([getFullSegmentation]) *)

Record FullSegmentation : Type := {
  fs_turns : list Turn.t;
  fs_volleys : list Volley.t;
  fs_sessions : list Session.t
}.

Definition getFullSegmentation (sha256 : string -> string)
    (messages : list Message) : Result FullSegmentation :=
  let* turns := messagesToTurns messages None in
  let* volleys := turnsToVolleys sha256 turns None in
  let* sessions := volleysToSessions volleys None in
  Ok {| fs_turns := turns; fs_volleys := volleys; fs_sessions := sessions |}.

(** ** The rest of the estimator: gap statistics ([analyzeGaps]) *)

Record GapStats : Type := {
  gs_min : Q;
  gs_max : Q;
  gs_median : Q;
  gs_mean : Q;
  gs_p70 : Q;
  gs_p85 : Q;
  gs_p95 : Q;
  gs_knee_point : option Q
}.

Definition analyzeGaps (gaps : list Q) : GapStats :=
  if (List.length gaps =? 0)%nat
  then {| gs_min := 0; gs_max := 0; gs_median := 0; gs_mean := 0;
          gs_p70 := 0; gs_p85 := 0; gs_p95 := 0; gs_knee_point := None |}
  else
    let sorted := JS.sort JS.numericCompare_le gaps in
    let sum := fold_left (fun acc val => acc + val)%Q sorted 0%Q in
    let n := List.length sorted in
    {| gs_min := nth 0%nat sorted 0%Q;
       gs_max := nth (n - 1)%nat sorted 0%Q;
       gs_median := nth (n / 2)%nat sorted 0%Q;
       gs_mean := (sum / inject_Z (Z.of_nat n))%Q;
       gs_p70 := getPercentileTimeout sorted 70;
       gs_p85 := getPercentileTimeout sorted 85;
       gs_p95 := getPercentileTimeout sorted 95;
       gs_knee_point :=
         if (5 <=? n)%nat
         then Some (nth (findKneePoint sorted) sorted 0%Q)
         else None |}.

(** * Vocabulary of the properties and concrete inputs *)

Definition defaultOrder (a b : Z) : Prop := JS.defaultCompare_le a b = true.

Definition sortedIds (xs : list Z) : list Z :=
  JS.sort JS.defaultCompare_le (JS.arrayFromSet xs).

(** The hash input of a volley identifier. *)
Definition volleyIdData (startTime endTime : Z) (participants : list Z) : string :=
  (JS.toISOString startTime ++ "-" ++ JS.toISOString endTime ++ "-"
   ++ JS.join "," (map JS.numberToString participants))%string.

(** [adjacent R l]: every element of [l] is related to its successor. *)
Fixpoint adjacent {A : Type} (R : A -> A -> Prop) (l : list A) : Prop :=
  match l with
  | a :: (b :: _) as l' => R a b /\ adjacent R l'
  | _ => True
  end.

(** Two consecutive messages that the scan keeps in one turn. *)
Definition sameTurn (T : Q) (a b : Message) : Prop :=
  from_id b = from_id a /\ (getGapSeconds (sent_at a) (sent_at b) <= T)%Q.

(** Two consecutive messages between which the scan starts a new turn. *)
Definition turnBreak (T : Q) (a b : Message) : Prop :=
  from_id b <> from_id a \/ (T < getGapSeconds (sent_at a) (sent_at b))%Q.

Definition wellFormedTurn (T : Q) (t : Turn.t) : Prop :=
  Turn.messages t <> []
  /\ Forall (fun m => from_id m = Turn.sender_id t) (Turn.messages t)
  /\ adjacent (sameTurn T) (Turn.messages t).

(** The last message of [t1] and the first message of [t2] are split. *)
Definition turnBoundary (T : Q) (t1 t2 : Turn.t) : Prop :=
  exists init a b tail,
    Turn.messages t1 = init ++ [a] /\ Turn.messages t2 = b :: tail
    /\ turnBreak T a b.

Definition turnGap (a b : Turn.t) : Q :=
  getGapSeconds (Turn.end_time a) (Turn.start_time b).

Definition wellFormedVolley (T : Q) (v : Volley.t) : Prop :=
  Volley.turns v <> []
  /\ adjacent (fun a b => (turnGap a b <= T)%Q) (Volley.turns v).

(** The last turn of [v1] and the first turn of [v2] are further apart
    than the timeout. *)
Definition volleyBoundary (T : Q) (v1 v2 : Volley.t) : Prop :=
  exists init a b tail,
    Volley.turns v1 = init ++ [a] /\ Volley.turns v2 = b :: tail
    /\ (T < turnGap a b)%Q.

Definition mkTurn (msgs : list Message) (sender : Z) (startTime endTime : Z)
  : Turn.t :=
  {| Turn.messages := msgs; Turn.sender_id := sender;
     Turn.start_time := startTime; Turn.end_time := endTime |}.

(** Two one-message turns, sent at 10:00 by sender 9 and at 10:01 by
    sender 10 (1970-01-01, UTC). *)
Definition turnsOfNineAndTen : list Turn.t :=
  [ mkTurn [createMessage 1 9 1 "hi" 36000000] 9 36000000 36000000;
    mkTurn [createMessage 2 10 1 "hello" 36060000] 10 36060000 36060000 ].

(** A stand-in for the digest, of the width of a SHA-256 hex digest. *)
Definition paddedDigest (s : string) : string :=
  String.substring 0 64 (s ++ JS.zeros 64).

(** Two exchanges over the same minute and between the same two senders,
    with different turns and different contents. *)
Definition exchangeA : list Turn.t :=
  [ mkTurn [createMessage 1 1 1 "Hey" 0] 1 0 0;
    mkTurn [createMessage 2 2 1 "Hi" 30000] 2 30000 30000 ].

Definition exchangeB : list Turn.t :=
  [ mkTurn [createMessage 7 2 1 "Good morning" 0] 2 0 0;
    mkTurn [createMessage 8 1 1 "Morning" 10000;
            createMessage 9 1 1 "Coffee?" 12000] 1 10000 12000;
    mkTurn [createMessage 10 2 1 "Sure" 30000] 2 30000 30000 ].

(** Two messages of one sender exactly one timeout (60 seconds) apart. *)
Definition gapEqualToTimeout : list Message :=
  [ createMessage 1 1 1 "a" 0; createMessage 2 1 1 "b" 60000 ].

(** The scenario of the specification: sender A is 1, sender B is 2. *)
Definition scenario : list Message :=
  [ createMessage 1 1 1 "a" 0;
    createMessage 2 1 1 "b" 30000;
    createMessage 3 2 1 "c" 65000;
    createMessage 4 2 1 "d" 95000;
    createMessage 5 1 1 "e" 400000 ].


Fixpoint lacks (c : ascii) (s : string) : bool :=
  match s with
  | EmptyString => true
  | String a s' => negb (Ascii.eqb a c) && lacks c s'
  end.

(** [HH:MM] of a time value, in UTC. *)
Definition timeOfDay (t : Z) : string :=
  let ms := t mod JS.msPerDay in
  (JS.pad 2 (ms / 3600000) ++ ":" ++ JS.pad 2 (ms / 60000 mod 60))%string.

Definition senderLabel (participants : list Z) (msg : Message) : string :=
  match participants with
  | p0 :: _ => if from_id msg =? p0 then "Me" else "Them"
  | [] => "Them"
  end.

(** The index that [getPercentileTimeout] reads in the sorted gaps. *)
Definition percentileIndex (n : nat) (percentile : Q) : nat :=
  Z.to_nat
    (Z.max 0
       (Z.min (Qceiling ((percentile / 100) * inject_Z (Z.of_nat n)) - 1)
          (Z.of_nat n - 1))).

(** Every turn of the result was made by [createTurn] from its own
    messages and sender. *)
Definition madeByCreateTurn (t : Turn.t) : Prop :=
  createTurn (Turn.messages t) (Turn.sender_id t) = Ok t.

(** A turn starts at its first message and ends at its last one, and does
    not end before it starts. *)
Definition turnTiming (t : Turn.t) : Prop :=
  exists m0 rest,
    Turn.messages t = m0 :: rest
    /\ Turn.start_time t = sent_at m0
    /\ Turn.end_time t = sent_at (last rest m0)
    /\ Turn.start_time t <= Turn.end_time t.

(** The number of positions of [senders] that differ from their
    predecessor, [prev] being the predecessor of the first one. *)
Fixpoint countChanges (prev : Z) (senders : list Z) : nat :=
  match senders with
  | [] => O
  | s :: rest =>
      Nat.add (if s =? prev then O else 1%nat) (countChanges s rest)
  end.

(** The messages of a volley, in order. *)
Definition volleyMessages (v : Volley.t) : list Message :=
  flat_map Turn.messages (Volley.turns v).

(** A volley that [buildVolley] makes of its own turns. *)
Definition madeByBuildVolley (sha256 : string -> string) (v : Volley.t) : Prop :=
  buildVolley sha256 (Volley.turns v) = Ok v.

Definition volleyGap (a b : Volley.t) : Q :=
  getGapSeconds (Volley.end_time a) (Volley.start_time b).

Definition wellFormedSession (T : Q) (s : Session.t) : Prop :=
  Session.volleys s <> []
  /\ adjacent (fun a b => (volleyGap a b <= T)%Q) (Session.volleys s).

Definition sessionBoundary (T : Q) (s1 s2 : Session.t) : Prop :=
  exists init a b tail,
    Session.volleys s1 = init ++ [a] /\ Session.volleys s2 = b :: tail
    /\ (T < volleyGap a b)%Q.

Definition madeByBuildSession (s : Session.t) : Prop :=
  buildSession (Session.volleys s) = Ok s.

Definition byCountDescending {T : Type} (a b : @TopItem T) : Prop :=
  (ti_count b <= ti_count a)%nat.

(** A volley record over the turns of [exchangeB]. *)
Definition volleyOverExchangeB : Volley.t :=
  {| Volley.id := "0000000000000000";
     Volley.turns := exchangeB;
     Volley.participants := [1; 2];
     Volley.start_time := 0;
     Volley.end_time := 30000;
     Volley.depth := 2;
     Volley.message_count := 4;
     Volley.pivot_text := "" |}.

(** The dates that [Raw.buildVolley] converts with [toISOString]: the
    timestamp of every message, the start of the first turn and the end of
    the last turn. *)
Definition isValid (date : Raw.Date) : bool :=
  match date with
  | Raw.ValidDate _ => true
  | Raw.InvalidDate => false
  end.

Definition datesOfVolley (turns : list Raw.Turn.t) : list Raw.Date :=
  map Raw.sent_at (flat_map Raw.Turn.messages turns)
  ++ match turns with
     | [] => []
     | firstTurn :: _ =>
         [Raw.Turn.start_time firstTurn; Raw.Turn.end_time (last turns firstTurn)]
     end.

(** A message, a turn and a volley over parsed timestamps, as records over
    [Date] objects. *)
Definition rawMessage (m : Message) : Raw.Message :=
  {| Raw.ID := ID m; Raw.chat_id := chat_id m; Raw.from_id := from_id m;
     Raw.content := content m; Raw.sent_at := Raw.ValidDate (sent_at m);
     Raw.message_id := message_id m; Raw.key_version := key_version m;
     Raw.CreatedAt := CreatedAt m; Raw.UpdatedAt := UpdatedAt m |}.

Definition rawTurn (t : Turn.t) : Raw.Turn.t :=
  {| Raw.Turn.messages := map rawMessage (Turn.messages t);
     Raw.Turn.sender_id := Turn.sender_id t;
     Raw.Turn.start_time := Raw.ValidDate (Turn.start_time t);
     Raw.Turn.end_time := Raw.ValidDate (Turn.end_time t) |}.

Definition rawVolley (v : Volley.t) : Raw.Volley.t :=
  {| Raw.Volley.id := Volley.id v;
     Raw.Volley.turns := map rawTurn (Volley.turns v);
     Raw.Volley.participants := Volley.participants v;
     Raw.Volley.start_time := Raw.ValidDate (Volley.start_time v);
     Raw.Volley.end_time := Raw.ValidDate (Volley.end_time v);
     Raw.Volley.depth := Volley.depth v;
     Raw.Volley.message_count := Volley.message_count v;
     Raw.Volley.pivot_text := Volley.pivot_text v |}.

(** The turn that [createTurn] makes of one message whose timestamp does
    not parse: its start and its end are the Invalid Date of that message. *)
Definition unparsedMessage : Raw.Message :=
  {| Raw.ID := 1; Raw.chat_id := 1; Raw.from_id := 1;
     Raw.content := "hi"; Raw.sent_at := Raw.InvalidDate;
     Raw.message_id := "msg_1"; Raw.key_version := 1;
     Raw.CreatedAt := "1970-01-01T00:00:00.000Z";
     Raw.UpdatedAt := "1970-01-01T00:00:00.000Z" |}.

Definition turnOfUnparsedMessage : list Raw.Turn.t :=
  [ {| Raw.Turn.messages := [unparsedMessage];
       Raw.Turn.sender_id := 1;
       Raw.Turn.start_time := Raw.InvalidDate;
       Raw.Turn.end_time := Raw.InvalidDate |} ].

(** * Facts about the built-ins *)

(** ** [Array.prototype.sort] *)

Section SortFacts.
Context {A : Type}.
Variable cmp_le : A -> A -> bool.

Let precedes (a b : A) : Prop := cmp_le a b = true.

Lemma insert_permutation (x : A) (l : list A) :
  Permutation (JS.insert cmp_le x l) (x :: l).
Proof.
  induction l as [|y l IH]; simpl.
  - apply Permutation_refl.
  - destruct (cmp_le x y).
    + apply Permutation_refl.
    + apply perm_trans with (y :: x :: l).
      * now apply perm_skip.
      * apply perm_swap.
Qed.

Lemma sort_permutation (l : list A) : Permutation (JS.sort cmp_le l) l.
Proof.
  induction l as [|x l IH]; simpl.
  - apply perm_nil.
  - apply perm_trans with (x :: JS.sort cmp_le l).
    + apply insert_permutation.
    + now apply perm_skip.
Qed.

Lemma sort_length (l : list A) :
  List.length (JS.sort cmp_le l) = List.length l.
Proof. apply Permutation_length, sort_permutation. Qed.

Lemma sort_In (l : list A) (x : A) : In x (JS.sort cmp_le l) <-> In x l.
Proof.
  split; apply Permutation_in.
  - apply sort_permutation.
  - apply Permutation_sym, sort_permutation.
Qed.

Lemma insert_in_front (x : A) (l : list A) :
  HdRel precedes x l -> JS.insert cmp_le x l = x :: l.
Proof.
  intros H. destruct H as [|y l H]; simpl.
  - reflexivity.
  - unfold precedes in H. now rewrite H.
Qed.

(** Sorting an array that is already in order leaves it as it is. *)
Lemma sort_of_sorted (l : list A) :
  Sorted precedes l -> JS.sort cmp_le l = l.
Proof.
  induction 1 as [|x l Hs IH Hd]; simpl.
  - reflexivity.
  - rewrite IH. now apply insert_in_front.
Qed.

Hypothesis cmp_total : forall a b, cmp_le a b = false -> cmp_le b a = true.

Lemma insert_HdRel (a x : A) (l : list A) :
  precedes a x -> HdRel precedes a l -> HdRel precedes a (JS.insert cmp_le x l).
Proof.
  intros Hax Hd. destruct Hd as [|y l Hay]; simpl.
  - now constructor.
  - destruct (cmp_le x y); now constructor.
Qed.

Lemma insert_sorted (x : A) (l : list A) :
  Sorted precedes l -> Sorted precedes (JS.insert cmp_le x l).
Proof.
  induction 1 as [|y l Hs IH Hd]; simpl.
  - repeat constructor.
  - destruct (cmp_le x y) eqn:E.
    + constructor; [now constructor | now constructor].
    + constructor; [exact IH|].
      apply insert_HdRel; [|exact Hd].
      now apply cmp_total.
Qed.

Lemma sort_sorted (l : list A) : Sorted precedes (JS.sort cmp_le l).
Proof.
  induction l as [|x l IH]; simpl.
  - constructor.
  - now apply insert_sorted.
Qed.

Lemma sort_idempotent (l : list A) :
  JS.sort cmp_le (JS.sort cmp_le l) = JS.sort cmp_le l.
Proof. apply sort_of_sorted, sort_sorted. Qed.

End SortFacts.

(** A duplicate-free list in the order of an antisymmetric, transitive
    relation is determined by its elements. *)
Lemma sorted_nodup_unique {A : Type} (R : A -> A -> Prop)
    (R_antisym : forall a b, R a b -> R b a -> a = b)
    (l1 l2 : list A) :
  StronglySorted R l1 -> StronglySorted R l2 ->
  NoDup l1 -> NoDup l2 ->
  (forall x, In x l1 <-> In x l2) ->
  l1 = l2.
Proof.
  intros S1. revert l2.
  induction S1 as [|a1 l1 S1 IH F1]; intros l2 S2 N1 N2 Hin.
  - destruct l2 as [|a2 l2]; [reflexivity|].
    exfalso. apply (proj2 (Hin a2)). now left.
  - destruct l2 as [|a2 l2].
    + exfalso. apply (proj1 (Hin a1)). now left.
    + inversion S2 as [|? ? S2' F2]; subst.
      inversion N1 as [|? ? Hn1 N1']; subst.
      inversion N2 as [|? ? Hn2 N2']; subst.
      assert (Heq : a1 = a2).
      { destruct (proj1 (Hin a1) (or_introl eq_refl)) as [E|I1]; [now symmetry|].
        destruct (proj2 (Hin a2) (or_introl eq_refl)) as [E|I2]; [exact E|].
        apply R_antisym.
        - rewrite Forall_forall in F1. now apply F1.
        - rewrite Forall_forall in F2. now apply F2. }
      subst a2. f_equal.
      apply IH; try assumption.
      intros x. split; intros Hx.
      * destruct (proj1 (Hin x) (or_intror Hx)) as [E|I]; [|exact I].
        subst x. contradiction.
      * destruct (proj2 (Hin x) (or_intror Hx)) as [E|I]; [|exact I].
        subst x. contradiction.
Qed.

(** ** The order of strings by code units *)

Lemma ascii_compare_refl (a : ascii) : Ascii.compare a a = Eq.
Proof. unfold Ascii.compare. apply N.compare_refl. Qed.

Lemma ascii_compare_lt_trans (a b c : ascii) :
  Ascii.compare a b = Lt -> Ascii.compare b c = Lt -> Ascii.compare a c = Lt.
Proof.
  unfold Ascii.compare. rewrite !N.compare_lt_iff. apply N.lt_trans.
Qed.

Lemma string_compare_lt_trans (s1 s2 s3 : string) :
  String.compare s1 s2 = Lt -> String.compare s2 s3 = Lt ->
  String.compare s1 s3 = Lt.
Proof.
  revert s2 s3.
  induction s1 as [|a s1 IH]; intros [|b s2] [|c s3]; simpl;
    try discriminate; try reflexivity.
  destruct (Ascii.compare a b) eqn:Eab; try discriminate;
  destruct (Ascii.compare b c) eqn:Ebc; try discriminate.
  - apply Ascii.compare_eq_iff in Eab, Ebc. subst.
    rewrite ascii_compare_refl. apply IH.
  - apply Ascii.compare_eq_iff in Eab. subst. now rewrite Ebc.
  - apply Ascii.compare_eq_iff in Ebc. subst. now rewrite Eab.
  - now rewrite (ascii_compare_lt_trans a b c).
Qed.

Lemma string_compare_refl (s : string) : String.compare s s = Eq.
Proof.
  induction s as [|a s IH]; simpl.
  - reflexivity.
  - now rewrite ascii_compare_refl.
Qed.

Lemma string_leb_cases (s1 s2 : string) :
  String.leb s1 s2 = true <-> String.compare s1 s2 = Lt \/ s1 = s2.
Proof.
  unfold String.leb. split.
  - destruct (String.compare s1 s2) eqn:E; intros H.
    + right. now apply String.compare_eq_iff.
    + now left.
    + discriminate.
  - intros [H | H].
    + now rewrite H.
    + subst. now rewrite string_compare_refl.
Qed.

Lemma string_leb_trans (s1 s2 s3 : string) :
  String.leb s1 s2 = true -> String.leb s2 s3 = true ->
  String.leb s1 s3 = true.
Proof.
  rewrite !string_leb_cases.
  intros [H12 | ->] [H23 | ->]; auto.
  left. now apply string_compare_lt_trans with s2.
Qed.

(** ** The default comparator on integers *)

Lemma numberToString_injective (a b : Z) :
  JS.numberToString a = JS.numberToString b -> a = b.
Proof.
  unfold JS.numberToString. intros H.
  assert (E : Some (Z.to_int a) = Some (Z.to_int b)).
  { rewrite <- (NilEmpty.isi (Z.to_int a)), <- (NilEmpty.isi (Z.to_int b)).
    now rewrite H. }
  injection E as E.
  rewrite <- (DecimalZ.of_to a), <- (DecimalZ.of_to b). now rewrite E.
Qed.

Lemma defaultCompare_total (a b : Z) :
  JS.defaultCompare_le a b = false -> JS.defaultCompare_le b a = true.
Proof.
  unfold JS.defaultCompare_le. intros H.
  destruct (String.leb_total (JS.numberToString a) (JS.numberToString b))
    as [E | E]; [congruence | exact E].
Qed.

Lemma defaultOrder_antisym (a b : Z) :
  defaultOrder a b -> defaultOrder b a -> a = b.
Proof.
  unfold defaultOrder, JS.defaultCompare_le. intros H1 H2.
  apply numberToString_injective. now apply String.leb_antisym.
Qed.

Lemma defaultOrder_trans (a b c : Z) :
  defaultOrder a b -> defaultOrder b c -> defaultOrder a c.
Proof.
  unfold defaultOrder, JS.defaultCompare_le. apply string_leb_trans.
Qed.

(** ** [Array.from(new Set(xs))] *)

Lemma existsb_eqb_In (x : Z) (seen : list Z) :
  existsb (Z.eqb x) seen = true <-> In x seen.
Proof.
  rewrite existsb_exists. split.
  - intros [y [Hy E]]. apply Z.eqb_eq in E. now subst.
  - intros H. exists x. split; [exact H | apply Z.eqb_refl].
Qed.

Lemma uniq_from_In (xs seen : list Z) (x : Z) :
  In x (JS.uniq_from seen xs) <-> In x xs /\ ~ In x seen.
Proof.
  revert seen. induction xs as [|y xs IH]; intros seen; simpl.
  - tauto.
  - destruct (existsb (Z.eqb y) seen) eqn:E.
    + apply existsb_eqb_In in E. rewrite IH.
      split; [tauto|]. intros [[-> | H] Hn]; tauto.
    + assert (Hy : ~ In y seen).
      { intros H. apply existsb_eqb_In in H. congruence. }
      simpl. rewrite IH. simpl.
      split.
      * intros [-> | [H Hn]]; [tauto|]. split; [now right | tauto].
      * intros [[-> | H] Hn]; [now left|].
        destruct (Z.eq_dec y x) as [-> | Hne]; [now left|].
        right. split; [exact H|]. intros [E' | H']; tauto.
Qed.

Lemma uniq_from_NoDup (xs seen : list Z) : NoDup (JS.uniq_from seen xs).
Proof.
  revert seen. induction xs as [|y xs IH]; intros seen; simpl.
  - constructor.
  - destruct (existsb (Z.eqb y) seen).
    + apply IH.
    + constructor; [|apply IH].
      rewrite uniq_from_In. simpl. tauto.
Qed.

Lemma arrayFromSet_In (xs : list Z) (x : Z) :
  In x (JS.arrayFromSet xs) <-> In x xs.
Proof. unfold JS.arrayFromSet. rewrite uniq_from_In. simpl. tauto. Qed.

Lemma arrayFromSet_NoDup (xs : list Z) : NoDup (JS.arrayFromSet xs).
Proof. apply uniq_from_NoDup. Qed.

(** ** The sorted list of distinct identifiers *)

Lemma sortedIds_In (xs : list Z) (x : Z) : In x (sortedIds xs) <-> In x xs.
Proof. unfold sortedIds. now rewrite sort_In, arrayFromSet_In. Qed.

Lemma sortedIds_NoDup (xs : list Z) : NoDup (sortedIds xs).
Proof.
  unfold sortedIds.
  apply Permutation_NoDup with (JS.arrayFromSet xs).
  - apply Permutation_sym, sort_permutation.
  - apply arrayFromSet_NoDup.
Qed.

Lemma sortedIds_sorted (xs : list Z) : StronglySorted defaultOrder (sortedIds xs).
Proof.
  apply Sorted_StronglySorted.
  - intros a b c. apply defaultOrder_trans.
  - apply sort_sorted. apply defaultCompare_total.
Qed.

(** The list depends on the set of identifiers only. *)
Lemma sortedIds_of_set (xs ys : list Z) :
  (forall x, In x xs <-> In x ys) -> sortedIds xs = sortedIds ys.
Proof.
  intros H. apply (sorted_nodup_unique defaultOrder defaultOrder_antisym).
  - apply sortedIds_sorted.
  - apply sortedIds_sorted.
  - apply sortedIds_NoDup.
  - apply sortedIds_NoDup.
  - intros x. now rewrite !sortedIds_In.
Qed.

Lemma sort_sortedIds (xs : list Z) :
  JS.sort JS.defaultCompare_le (sortedIds xs) = sortedIds xs.
Proof. apply sort_idempotent, defaultCompare_total. Qed.

(** ** Strings *)

Lemma substring_prefix_length (m : nat) (s : string) :
  (m <= String.length s)%nat -> String.length (String.substring 0 m s) = m.
Proof.
  revert s. induction m as [|m IH]; intros s H.
  - destruct s; reflexivity.
  - destruct s as [|c s]; simpl in *.
    + lia.
    + rewrite IH; [reflexivity | lia].
Qed.

Lemma string_length_append (s1 s2 : string) :
  String.length (s1 ++ s2) = (String.length s1 + String.length s2)%nat.
Proof. induction s1 as [|c s1 IH]; simpl; [reflexivity | now rewrite IH]. Qed.

Lemma zeros_length (k : nat) : String.length (JS.zeros k) = k.
Proof. induction k as [|k IH]; simpl; [reflexivity | now rewrite IH]. Qed.

Lemma paddedDigest_length (s : string) :
  String.length (paddedDigest s) = 64%nat.
Proof.
  unfold paddedDigest. apply substring_prefix_length.
  rewrite string_length_append, zeros_length. lia.
Qed.

Lemma string_app_assoc (s1 s2 s3 : string) :
  ((s1 ++ s2) ++ s3 = s1 ++ (s2 ++ s3))%string.
Proof. induction s1 as [|c s1 IH]; simpl; [reflexivity | now rewrite IH]. Qed.

Lemma string_app_nil_r (s : string) : (s ++ "")%string = s.
Proof. induction s as [|c s IH]; simpl; [reflexivity | now rewrite IH]. Qed.

Lemma substring_prefix (s1 s2 : string) :
  String.substring 0 (String.length s1) (s1 ++ s2) = s1.
Proof.
  induction s1 as [|c s1 IH]; simpl.
  - destruct s2; reflexivity.
  - now rewrite IH.
Qed.

(** * The volley builder *)

Section VolleyFacts.
Variable sha256 : string -> string.

(** What [buildVolley] returns on a non-empty turn list, field by field. *)
Lemma buildVolley_fields (firstTurn : Turn.t) (rest : list Turn.t) :
  let turns := firstTurn :: rest in
  let participants := sortedIds (map Turn.sender_id turns) in
  let startTime := Turn.start_time firstTurn in
  let endTime := Turn.end_time (last turns firstTurn) in
  buildVolley sha256 turns =
  Ok {| Volley.id :=
          JS.substring 0 16 (sha256 (volleyIdData startTime endTime participants));
        Volley.turns := turns;
        Volley.participants := participants;
        Volley.start_time := startTime;
        Volley.end_time := endTime;
        Volley.depth := fst (fold_left depthStep turns (O, None));
        Volley.message_count := List.length (flat_map Turn.messages turns);
        Volley.pivot_text :=
          JS.join newline
            (map (pivotLine participants) (flat_map Turn.messages turns)) |}.
Proof.
  intros turns participants startTime endTime.
  subst turns participants startTime endTime.
  unfold buildVolley, createVolleyId, volleyIdData, sortedIds.
  rewrite (sort_idempotent _ defaultCompare_total).
  reflexivity.
Qed.

Lemma buildVolley_nonempty (turns : list Turn.t) :
  turns <> [] ->
  exists v, buildVolley sha256 turns = Ok v
    /\ Volley.turns v = turns
    /\ Volley.participants v = sortedIds (map Turn.sender_id turns).
Proof.
  destruct turns as [|firstTurn rest]; [congruence|]. intros _.
  eexists. split; [apply buildVolley_fields|]. simpl. auto.
Qed.

End VolleyFacts.

(** What the code does ensure: the participants are the distinct sender
    identifiers, in the order of their decimal strings. *)
Lemma buildVolley_participants (sha256 : string -> string)
    (turns : list Turn.t) (v : Volley.t) :
  buildVolley sha256 turns = Ok v ->
  NoDup (Volley.participants v)
  /\ (forall x, In x (Volley.participants v) <-> In x (map Turn.sender_id turns))
  /\ StronglySorted defaultOrder (Volley.participants v).
Proof.
  intros H. destruct turns as [|t0 rest]; [discriminate|].
  rewrite buildVolley_fields in H. injection H as <-. simpl.
  split; [apply sortedIds_NoDup|].
  split; [intros x; apply sortedIds_In | apply sortedIds_sorted].
Qed.

(** ** The lines of the pivot text *)

Lemma lacks_app (c : ascii) (s1 s2 : string) :
  lacks c (s1 ++ s2) = lacks c s1 && lacks c s2.
Proof.
  induction s1 as [|a s1 IH]; simpl; [reflexivity|].
  now rewrite IH, andb_assoc.
Qed.

Lemma lacks_T_zeros (k : nat) : lacks "T" (JS.zeros k) = true.
Proof. induction k as [|k IH]; simpl; [reflexivity | exact IH]. Qed.

Lemma lacks_T_uint (d : uint) : lacks "T" (NilEmpty.string_of_uint d) = true.
Proof. induction d; simpl; auto. Qed.

Lemma lacks_T_pad (width : nat) (n : Z) : lacks "T" (JS.pad width n) = true.
Proof.
  unfold JS.pad, JS.digits. now rewrite lacks_app, lacks_T_zeros, lacks_T_uint.
Qed.

Lemma lacks_T_isoDate (t : Z) : lacks "T" (JS.isoDate t) = true.
Proof.
  unfold JS.isoDate. destruct (JS.civilFromDays (t / JS.msPerDay)) as [[y m] d].
  unfold JS.isoYear.
  destruct ((0 <=? y) && (y <=? 9999)); [|destruct (y <? 0)];
    repeat (rewrite lacks_app || rewrite lacks_T_pad || simpl); reflexivity.
Qed.

Lemma lacks_T_isoTime (t : Z) : lacks "T" (JS.isoTime t) = true.
Proof.
  unfold JS.isoTime.
  repeat (rewrite lacks_app || rewrite lacks_T_pad || simpl); reflexivity.
Qed.

Lemma split_acc_lacks (sep : ascii) (s cur : string) :
  lacks sep s = true -> JS.split_acc sep cur s = [(cur ++ s)%string].
Proof.
  revert cur. induction s as [|a s IH]; intros cur H; simpl in *.
  - now rewrite string_app_nil_r.
  - apply andb_true_iff in H. destruct H as [Ha Hs].
    apply negb_true_iff in Ha. rewrite Ha, IH by exact Hs.
    now rewrite string_app_assoc.
Qed.

Lemma split_acc_at_separator (sep : ascii) (s1 s2 cur : string) :
  lacks sep s1 = true ->
  JS.split_acc sep cur (s1 ++ String sep s2)
  = (cur ++ s1)%string :: JS.split_acc sep EmptyString s2.
Proof.
  revert cur. induction s1 as [|a s1 IH]; intros cur H; simpl in *.
  - now rewrite Ascii.eqb_refl, string_app_nil_r.
  - apply andb_true_iff in H. destruct H as [Ha Hs].
    apply negb_true_iff in Ha. rewrite Ha, IH by exact Hs.
    now rewrite string_app_assoc.
Qed.

(** [toISOString().split('T')] has exactly the date and the time. *)
Lemma split_toISOString (t : Z) :
  JS.split "T" (JS.toISOString t) = [JS.isoDate t; JS.isoTime t].
Proof.
  unfold JS.split, JS.toISOString.
  change (JS.isoDate t ++ "T" ++ JS.isoTime t)%string
    with (JS.isoDate t ++ String "T" (JS.isoTime t))%string.
  rewrite split_acc_at_separator by apply lacks_T_isoDate.
  rewrite split_acc_lacks by apply lacks_T_isoTime.
  reflexivity.
Qed.

Lemma pad2_length (n : Z) :
  0 <= n < 100 -> String.length (JS.pad 2 n) = 2%nat.
Proof.
  intros H.
  assert (Hall : forallb (fun k => (String.length (JS.pad 2 (Z.of_nat k)) =? 2)%nat)
                   (seq 0 100) = true) by (vm_compute; reflexivity).
  rewrite forallb_forall in Hall.
  specialize (Hall (Z.to_nat n)).
  rewrite Z2Nat.id in Hall by lia.
  apply Nat.eqb_eq, Hall, in_seq. lia.
Qed.

Lemma timeOfDay_length (t : Z) : String.length (timeOfDay t) = 5%nat.
Proof.
  unfold timeOfDay, JS.msPerDay.
  assert (H : 0 <= t mod 86400000 < 86400000) by (apply Z.mod_pos_bound; lia).
  assert (Hh : 0 <= t mod 86400000 / 3600000 < 100).
  { split; [apply Z.div_pos; lia | apply Z.div_lt_upper_bound; lia]. }
  assert (Hm : 0 <= t mod 86400000 / 60000 mod 60 < 100).
  { pose proof (Z.mod_pos_bound (t mod 86400000 / 60000) 60). lia. }
  now rewrite !string_length_append, !pad2_length.
Qed.

Lemma substring_isoTime (t : Z) :
  JS.substring 0 5 (JS.isoTime t) = timeOfDay t.
Proof.
  unfold JS.substring. change (5 - 0)%nat with 5%nat.
  rewrite <- (timeOfDay_length t) at 1.
  replace (JS.isoTime t) with
    (timeOfDay t ++
     (":" ++ JS.pad 2 (t mod JS.msPerDay / 1000 mod 60) ++ "."
      ++ JS.pad 3 (t mod JS.msPerDay mod 1000) ++ "Z"))%string.
  - apply substring_prefix.
  - unfold timeOfDay, JS.isoTime. cbv zeta.
    rewrite !string_app_assoc. reflexivity.
Qed.

(** Every line is [HH:MM - <label>: <content>], the label being "Me" for the
    sender that stands first in the participant list. *)
Lemma pivotLine_format (participants : list Z) (msg : Message) :
  pivotLine participants msg
  = (timeOfDay (sent_at msg) ++ " - " ++ senderLabel participants msg ++ ": "
     ++ content msg)%string.
Proof.
  unfold pivotLine, parseDate, senderLabel.
  rewrite split_toISOString. cbn [nth]. now rewrite substring_isoTime.
Qed.

Lemma buildVolley_pivot_text (sha256 : string -> string)
    (turns : list Turn.t) (v : Volley.t) :
  buildVolley sha256 turns = Ok v ->
  Volley.pivot_text v
  = JS.join newline
      (map (fun msg =>
              timeOfDay (sent_at msg) ++ " - "
              ++ senderLabel (Volley.participants v) msg ++ ": "
              ++ content msg)%string
         (flat_map Turn.messages turns)).
Proof.
  intros H. destruct turns as [|t0 rest]; [discriminate|].
  rewrite buildVolley_fields in H. injection H as <-.
  cbn [Volley.pivot_text Volley.participants].
  f_equal. apply map_ext. intros msg. apply pivotLine_format.
Qed.

(** ** The builder on dates that may be invalid *)

Section RawVolleyFacts.
Variable sha256 : string -> string.

Lemma mapThrowing_valid (participants : list Z) (messages : list Raw.Message) :
  forallb isValid (map Raw.sent_at messages) = true ->
  exists lines,
    Raw.mapThrowing (Raw.pivotLine participants) messages = Ok lines
    /\ List.length lines = List.length messages.
Proof.
  induction messages as [|m rest IH]; intros H.
  - exists []. split; reflexivity.
  - simpl in H. apply andb_true_iff in H. destruct H as [Hm Hrest].
    destruct (IH Hrest) as (lines & E & Hlen).
    cbn [Raw.mapThrowing]. unfold Raw.pivotLine at 1, Raw.parseDate.
    destruct (Raw.sent_at m) as [time|]; [|discriminate].
    cbn [Raw.toISOString bind]. rewrite E. cbn [bind].
    eexists. split; [reflexivity|]. simpl. now rewrite Hlen.
Qed.

Lemma mapThrowing_invalid (participants : list Z) (messages : list Raw.Message) :
  forallb isValid (map Raw.sent_at messages) = false ->
  Raw.mapThrowing (Raw.pivotLine participants) messages
  = Throw (RangeError "Invalid time value").
Proof.
  induction messages as [|m rest IH]; intros H; [discriminate|].
  simpl in H. cbn [Raw.mapThrowing]. unfold Raw.pivotLine at 1, Raw.parseDate.
  destruct (Raw.sent_at m) as [time|]; [|reflexivity].
  cbn [Raw.toISOString bind]. simpl in H. rewrite (IH H). reflexivity.
Qed.

Lemma Raw_buildVolley_valid (turns : list Raw.Turn.t) :
  turns <> [] ->
  forallb isValid (datesOfVolley turns) = true ->
  exists v,
    Raw.buildVolley sha256 turns = Ok v
    /\ Raw.Volley.turns v = turns
    /\ Raw.Volley.message_count v
       = List.length (flat_map Raw.Turn.messages turns).
Proof.
  destruct turns as [|firstTurn rest]; [congruence|]. intros _ H.
  unfold datesOfVolley in H. rewrite forallb_app in H.
  apply andb_true_iff in H. destruct H as [Hm Hse].
  cbn [forallb] in Hse. apply andb_true_iff in Hse. destruct Hse as [Hs He].
  apply andb_true_iff in He. destruct He as [He _].
  unfold Raw.buildVolley.
  destruct (mapThrowing_valid
              (JS.sort JS.defaultCompare_le
                 (JS.arrayFromSet (map Raw.Turn.sender_id (firstTurn :: rest))))
              _ Hm) as (lines & E & _).
  rewrite E. cbn [bind]. unfold Raw.createVolleyId.
  destruct (Raw.Turn.start_time firstTurn) as [s|]; [|discriminate].
  destruct (Raw.Turn.end_time (last (firstTurn :: rest) firstTurn)) as [e|];
    [|discriminate].
  cbn [Raw.toISOString bind]. eexists. split; [reflexivity|].
  split; reflexivity.
Qed.

Lemma Raw_buildVolley_invalid (turns : list Raw.Turn.t) :
  turns <> [] ->
  forallb isValid (datesOfVolley turns) = false ->
  Raw.buildVolley sha256 turns = Throw (RangeError "Invalid time value").
Proof.
  destruct turns as [|firstTurn rest]; [congruence|]. intros _ H.
  unfold datesOfVolley in H. rewrite forallb_app in H.
  unfold Raw.buildVolley.
  destruct (forallb isValid
              (map Raw.sent_at (flat_map Raw.Turn.messages (firstTurn :: rest))))
    eqn:Hm.
  - destruct (mapThrowing_valid
                (JS.sort JS.defaultCompare_le
                   (JS.arrayFromSet (map Raw.Turn.sender_id (firstTurn :: rest))))
                _ Hm) as (lines & E & _).
    rewrite E. cbn [bind]. unfold Raw.createVolleyId.
    cbn [andb forallb] in H.
    destruct (Raw.Turn.start_time firstTurn) as [s|]; [|reflexivity].
    destruct (Raw.Turn.end_time (last (firstTurn :: rest) firstTurn)) as [e|];
      [discriminate | reflexivity].
  - now rewrite (mapThrowing_invalid _ _ Hm).
Qed.

End RawVolleyFacts.

(** On turns over parsed timestamps the two builders agree. *)
Lemma flat_map_rawTurn (turns : list Turn.t) :
  flat_map Raw.Turn.messages (map rawTurn turns)
  = map rawMessage (flat_map Turn.messages turns).
Proof.
  induction turns as [|t rest IH]; [reflexivity|].
  simpl. now rewrite IH, map_app.
Qed.

Lemma last_rawTurn (turns : list Turn.t) (d : Turn.t) :
  last (map rawTurn turns) (rawTurn d) = rawTurn (last turns d).
Proof.
  induction turns as [|t rest IH]; [reflexivity|].
  destruct rest as [|t' rest']; [reflexivity|]. exact IH.
Qed.

Lemma depthStep_rawTurn (turns : list Turn.t) (st : nat * option Z) :
  fold_left Raw.depthStep (map rawTurn turns) st = fold_left depthStep turns st.
Proof.
  revert st. induction turns as [|t rest IH]; intros st; [reflexivity|].
  simpl. rewrite IH. reflexivity.
Qed.

Lemma pivotLine_rawMessage (participants : list Z) (messages : list Message) :
  Raw.mapThrowing (Raw.pivotLine participants) (map rawMessage messages)
  = Ok (map (pivotLine participants) messages).
Proof.
  induction messages as [|m rest IH]; [reflexivity|].
  cbn [map Raw.mapThrowing]. rewrite IH. reflexivity.
Qed.

Lemma buildVolley_on_valid_dates (sha256 : string -> string)
    (turns : list Turn.t) :
  Raw.buildVolley sha256 (map rawTurn turns)
  = match buildVolley sha256 turns with
    | Ok v => Ok (rawVolley v)
    | Throw e => Throw e
    end.
Proof.
  destruct turns as [|firstTurn rest]; [reflexivity|].
  unfold Raw.buildVolley, buildVolley.
  change (map rawTurn (firstTurn :: rest))
    with (rawTurn firstTurn :: map rawTurn rest) at 1.
  cbv iota.
  change (rawTurn firstTurn :: map rawTurn rest)
    with (map rawTurn (firstTurn :: rest)).
  rewrite flat_map_rawTurn, last_rawTurn, depthStep_rawTurn, map_map.
  change (map (fun x => Raw.Turn.sender_id (rawTurn x)) (firstTurn :: rest))
    with (map Turn.sender_id (firstTurn :: rest)).
  rewrite pivotLine_rawMessage. cbn [bind].
  unfold Raw.createVolleyId, createVolleyId.
  cbn [rawTurn Raw.Turn.start_time Raw.Turn.end_time Raw.toISOString bind].
  unfold rawVolley. cbn. rewrite length_map. reflexivity.
Qed.

(** * Grouping by gaps *)

Lemma adjacent_snoc {A : Type} (R : A -> A -> Prop) (init : list A) (a b : A) :
  adjacent R (init ++ [a]) -> R a b -> adjacent R ((init ++ [a]) ++ [b]).
Proof.
  induction init as [|x init IH]; simpl; intros H Hab.
  - auto.
  - destruct init as [|y init]; simpl in *.
    + destruct H as [Hxa _]. auto.
    + destruct H as [Hxy H]. split; [exact Hxy|]. now apply IH.
Qed.

Lemma Qgt_bool_true (a b : Q) : Qgt_bool a b = true -> (b < a)%Q.
Proof.
  unfold Qgt_bool. intros H. apply Qnot_le_lt. intros Hle.
  apply Qle_bool_iff in Hle. rewrite Hle in H. discriminate.
Qed.

Lemma Qgt_bool_false (a b : Q) : Qgt_bool a b = false -> (a <= b)%Q.
Proof.
  unfold Qgt_bool. intros H. apply Qle_bool_iff.
  destruct (Qle_bool a b); [reflexivity | discriminate].
Qed.

(** ** Phase 1: turns *)

Lemma createTurn_snoc (init : list Message) (prev : Message) (sender : Z) :
  exists t, createTurn (init ++ [prev]) sender = Ok t
    /\ Turn.messages t = init ++ [prev]
    /\ Turn.sender_id t = sender
    /\ Turn.start_time t = sent_at (hd prev init)
    /\ Turn.end_time t = sent_at prev.
Proof.
  unfold createTurn, parseDate.
  destruct init as [|m init].
  - eexists. split; [reflexivity|]. simpl. auto.
  - change ((m :: init) ++ [prev]) with (m :: (init ++ [prev])).
    eexists. split; [reflexivity|]. cbn [Turn.messages Turn.sender_id
      Turn.start_time Turn.end_time hd].
    repeat split.
    change (m :: (init ++ [prev])) with ((m :: init) ++ [prev]).
    now rewrite last_last.
Qed.

Lemma snoc_length_pos {A : Type} (init : list A) (a : A) :
  (0 <? List.length (init ++ [a]))%nat = true.
Proof. apply Nat.ltb_lt. rewrite length_app. simpl. lia. Qed.

Lemma turnsLoop_spec (T : Q) (rest : list Message) :
  forall (prev : Message) (turns : list Turn.t) (init : list Message)
         (sender : Z),
    Forall (fun m => from_id m = sender) (init ++ [prev]) ->
    adjacent (sameTurn T) (init ++ [prev]) ->
    exists t0 new,
      turnsLoop T prev rest turns (init ++ [prev]) sender
        = Ok (turns ++ t0 :: new)
      /\ (exists ext, Turn.messages t0 = (init ++ [prev]) ++ ext)
      /\ flat_map Turn.messages (t0 :: new) = (init ++ [prev]) ++ rest
      /\ Forall (wellFormedTurn T) (t0 :: new)
      /\ adjacent (turnBoundary T) (t0 :: new).
Proof.
  induction rest as [|curr rest IH]; intros prev turns init sender Hs Ha.
  - simpl. rewrite snoc_length_pos.
    destruct (createTurn_snoc init prev sender) as (t & Et & Hm & Hid & _).
    rewrite Et. simpl. exists t, []. split; [reflexivity|].
    split; [exists []; now rewrite app_nil_r|].
    split; [simpl; now rewrite Hm, !app_nil_r|].
    split; [|exact I].
    constructor; [|constructor].
    unfold wellFormedTurn. rewrite Hm, Hid.
    split; [|now split]. destruct init; discriminate.
  - assert (Hprev : from_id prev = sender).
    { rewrite Forall_forall in Hs. apply Hs, in_or_app. right. now left. }
    cbn [turnsLoop]. unfold parseDate.
    destruct (negb (from_id curr =? sender)
              || Qgt_bool (getGapSeconds (sent_at prev) (sent_at curr)) T) eqn:Eb.
    + destruct (createTurn_snoc init prev sender) as (t & Et & Hm & Hid & _).
      rewrite Et. cbn [bind].
      destruct (IH curr (turns ++ [t]) [] (from_id curr)) as
        (t1 & new & E1 & [ext Hext] & Hflat & Hwf & Hadj).
      { repeat constructor. }
      { exact I. }
      change ([] ++ [curr]) with [curr] in E1, Hext, Hflat. rewrite E1.
      exists t, (t1 :: new). split; [now rewrite <- app_assoc|].
      split; [exists []; now rewrite app_nil_r|].
      split.
      { change (flat_map Turn.messages (t :: t1 :: new))
          with (Turn.messages t ++ flat_map Turn.messages (t1 :: new)).
        rewrite Hflat, Hm. reflexivity. }
      split.
      { constructor; [|exact Hwf].
        unfold wellFormedTurn. rewrite Hm, Hid.
        split; [|now split]. destruct init; discriminate. }
      split; [|exact Hadj].
      exists init, prev, curr, ext. split; [exact Hm|]. split; [exact Hext|].
      apply orb_true_iff in Eb. destruct Eb as [Eb | Eb].
      * left. apply negb_true_iff, Z.eqb_neq in Eb. congruence.
      * right. now apply Qgt_bool_true.
    + apply orb_false_iff in Eb. destruct Eb as [Eb1 Eb2].
      apply negb_false_iff, Z.eqb_eq in Eb1. apply Qgt_bool_false in Eb2.
      destruct (IH curr turns (init ++ [prev]) sender) as
        (t0 & new & E0 & [ext Hext] & Hflat & Hwf & Hadj).
      { apply Forall_app. split; [exact Hs | now repeat constructor]. }
      { apply adjacent_snoc; [exact Ha|]. split; [congruence | exact Eb2]. }
      rewrite E0. exists t0, new. split; [reflexivity|].
      split; [exists (curr :: ext); rewrite Hext; now rewrite <- !app_assoc|].
      split; [rewrite Hflat; now rewrite <- !app_assoc|].
      now split.
Qed.

Lemma messagesToTurns_spec (messages : list Message) (turnTimeout : option Q) :
  let sorted := sortByTimestamp messages in
  let T := resolveTurnTimeout sorted turnTimeout in
  exists turns,
    messagesToTurns messages turnTimeout = Ok turns
    /\ flat_map Turn.messages turns = sorted
    /\ Forall (wellFormedTurn T) turns
    /\ adjacent (turnBoundary T) turns.
Proof.
  intros sorted T. subst T. unfold messagesToTurns. fold sorted.
  destruct sorted as [|m0 rest] eqn:Es.
  - exists []. repeat split; constructor.
  - destruct (turnsLoop_spec
                (resolveTurnTimeout (m0 :: rest) turnTimeout) rest m0 []
                [] (from_id m0)) as (t0 & new & E & _ & Hflat & Hwf & Hadj).
    { repeat constructor. }
    { exact I. }
    exists (t0 :: new). split; [exact E|]. now split.
Qed.

(** The messages are scanned in the order of their timestamps. *)
Lemma sortByTimestamp_permutation (messages : list Message) :
  Permutation (sortByTimestamp messages) messages.
Proof. apply sort_permutation. Qed.

Lemma sortByTimestamp_sorted (messages : list Message) :
  Sorted (fun a b => sent_at a <= sent_at b) (sortByTimestamp messages).
Proof.
  unfold sortByTimestamp, parseDate.
  set (c := fun a b : Message => sent_at a - sent_at b <=? 0).
  assert (H : Sorted (fun a b => c a b = true) (JS.sort c messages)).
  { apply sort_sorted. unfold c. intros a b E.
    apply Z.leb_gt in E. apply Z.leb_le. lia. }
  induction H as [|x l Hs IH Hd]; constructor.
  - exact IH.
  - destruct Hd as [|y l Hxy]; constructor.
    unfold c in Hxy. apply Z.leb_le in Hxy. lia.
Qed.

Lemma resolveTurnTimeout_supplied (sorted : list Message) (T : Q) :
  ~ T == 0 -> resolveTurnTimeout sorted (Some T) = T.
Proof.
  intros H. unfold resolveTurnTimeout, afterGuard, falsy.
  destruct (Qeq_bool T 0) eqn:E; [|reflexivity].
  apply Qeq_bool_iff in E. contradiction.
Qed.

Lemma turnBreak_iff (T : Q) (a b : Message) :
  turnBreak T a b <-> ~ sameTurn T a b.
Proof.
  unfold turnBreak, sameTurn. split.
  - intros [Hs | Hg] [Es Eg]; [contradiction|].
    now apply (Qlt_not_le _ _ Hg).
  - intros H. destruct (Z.eq_dec (from_id b) (from_id a)) as [E | N]; [|now left].
    right. apply Qnot_le_lt. intros Hle. apply H. now split.
Qed.

(** ** Phase 2: volleys *)

Section VolleyLoop.
Variable sha256 : string -> string.

Lemma buildVolley_snoc (init : list Turn.t) (prev : Turn.t) :
  exists v, buildVolley sha256 (init ++ [prev]) = Ok v
    /\ Volley.turns v = init ++ [prev].
Proof.
  destruct (buildVolley_nonempty sha256 (init ++ [prev])) as (v & E & Ht & _).
  - destruct init; discriminate.
  - now exists v.
Qed.

Lemma volleysLoop_spec (T : Q) (rest : list Turn.t) :
  forall (prev : Turn.t) (volleys : list Volley.t) (init : list Turn.t),
    adjacent (fun a b => (turnGap a b <= T)%Q) (init ++ [prev]) ->
    exists v0 new,
      volleysLoop sha256 T prev rest volleys (init ++ [prev])
        = Ok (volleys ++ v0 :: new)
      /\ (exists ext, Volley.turns v0 = (init ++ [prev]) ++ ext)
      /\ flat_map Volley.turns (v0 :: new) = (init ++ [prev]) ++ rest
      /\ Forall (wellFormedVolley T) (v0 :: new)
      /\ adjacent (volleyBoundary T) (v0 :: new).
Proof.
  induction rest as [|curr rest IH]; intros prev volleys init Ha.
  - simpl. rewrite snoc_length_pos.
    destruct (buildVolley_snoc init prev) as (v & Ev & Ht).
    rewrite Ev. simpl. exists v, []. split; [reflexivity|].
    split; [exists []; now rewrite app_nil_r|].
    split; [simpl; now rewrite Ht, !app_nil_r|].
    split; [|exact I].
    constructor; [|constructor].
    unfold wellFormedVolley. rewrite Ht.
    split; [|exact Ha]. destruct init; discriminate.
  - cbn [volleysLoop]. fold (turnGap prev curr).
    destruct (Qgt_bool (turnGap prev curr) T) eqn:Eb.
    + destruct (buildVolley_snoc init prev) as (v & Ev & Ht).
      rewrite Ev. cbn [bind].
      destruct (IH curr (volleys ++ [v]) []) as
        (v1 & new & E1 & [ext Hext] & Hflat & Hwf & Hadj).
      { exact I. }
      change ([] ++ [curr]) with [curr] in E1, Hext, Hflat. rewrite E1.
      exists v, (v1 :: new). split; [now rewrite <- app_assoc|].
      split; [exists []; now rewrite app_nil_r|].
      split.
      { change (flat_map Volley.turns (v :: v1 :: new))
          with (Volley.turns v ++ flat_map Volley.turns (v1 :: new)).
        rewrite Hflat, Ht. reflexivity. }
      split.
      { constructor; [|exact Hwf].
        unfold wellFormedVolley. rewrite Ht.
        split; [|exact Ha]. destruct init; discriminate. }
      split; [|exact Hadj].
      exists init, prev, curr, ext. split; [exact Ht|]. split; [exact Hext|].
      now apply Qgt_bool_true.
    + apply Qgt_bool_false in Eb.
      destruct (IH curr volleys (init ++ [prev])) as
        (v0 & new & E0 & [ext Hext] & Hflat & Hwf & Hadj).
      { now apply adjacent_snoc. }
      rewrite E0. exists v0, new. split; [reflexivity|].
      split; [exists (curr :: ext); rewrite Hext; now rewrite <- !app_assoc|].
      split; [rewrite Hflat; now rewrite <- !app_assoc|].
      now split.
Qed.

Lemma turnsToVolleys_spec (turns : list Turn.t) (threadletTimeout : option Q) :
  let T := resolveThreadletTimeout turns threadletTimeout in
  exists volleys,
    turnsToVolleys sha256 turns threadletTimeout = Ok volleys
    /\ flat_map Volley.turns volleys = turns
    /\ Forall (wellFormedVolley T) volleys
    /\ adjacent (volleyBoundary T) volleys.
Proof.
  intros T. subst T. unfold turnsToVolleys.
  destruct turns as [|t0 rest].
  - exists []. repeat split; constructor.
  - destruct (volleysLoop_spec
                (resolveThreadletTimeout (t0 :: rest) threadletTimeout) rest t0
                [] []) as (v0 & new & E & _ & Hflat & Hwf & Hadj).
    { exact I. }
    exists (v0 :: new). split; [exact E|]. now split.
Qed.

End VolleyLoop.

(** * The knee-point threshold estimator *)

Lemma kneeScan_In (differences : list Q) (indices : list nat) :
  forall (maxDiff : Extended) (kneeIndex : nat),
    In (kneeScan differences indices maxDiff kneeIndex) (kneeIndex :: indices).
Proof.
  induction indices as [|i rest IH]; intros maxDiff kneeIndex; simpl.
  - now left.
  - destruct (gt_extended (Qabs (nth i differences 0%Q)) maxDiff).
    + right. apply IH.
    + destruct (IH maxDiff kneeIndex) as [E | H]; [now left | now right; right].
Qed.

(** The first comparison of the scan is against [-Infinity] and succeeds,
    so the scan returns one of the indices it visits. *)
Lemma kneeScan_from_NegInfinity (differences : list Q) (i : nat)
    (rest : list nat) (kneeIndex : nat) :
  In (kneeScan differences (i :: rest) NegInfinity kneeIndex) (i :: rest).
Proof. simpl. apply kneeScan_In. Qed.

Lemma findKneePoint_interior (values : list Q) :
  (3 <= List.length values)%nat ->
  (0 < findKneePoint values < List.length values - 1)%nat.
Proof.
  intros Hn. unfold findKneePoint.
  set (n := List.length values) in *.
  destruct (n <? 3)%nat eqn:E3; [apply Nat.ltb_lt in E3; lia|].
  assert (Hhalf : (0 < n / 2 < n - 1)%nat).
  { split.
    - apply Nat.div_str_pos. lia.
    - apply Nat.Div0.div_lt_upper_bound. lia. }
  match goal with |- context [Qeq_bool ?r 0] => destruct (Qeq_bool r 0) end.
  - exact Hhalf.
  - match goal with |- context [kneeScan ?d _ _ _] => set (differences := d) end.
    destruct (n - 2)%nat as [|k] eqn:Ek; [lia|].
    pose proof (kneeScan_from_NegInfinity differences 1 (seq 2 k) 0) as H.
    change (1%nat :: seq 2 k) with (seq 1 (S k)) in H.
    apply in_seq in H. lia.
Qed.

Lemma percentile_index_in_range (index : Z) (n : nat) :
  (0 < n)%nat ->
  (Z.to_nat (Z.max 0 (Z.min index (Z.of_nat n - 1))) < n)%nat.
Proof. lia. Qed.

Lemma getPercentileTimeout_nth (gaps : list Q) (percentile : Q) :
  gaps <> [] ->
  exists i, (i < List.length gaps)%nat
    /\ getPercentileTimeout gaps percentile
       = nth i (JS.sort JS.numericCompare_le gaps) 0%Q.
Proof.
  intros Hne. unfold getPercentileTimeout.
  assert (Hpos : (0 < List.length gaps)%nat).
  { destruct gaps; [congruence | simpl; lia]. }
  destruct (List.length gaps =? 0)%nat eqn:E0; [apply Nat.eqb_eq in E0; lia|].
  eexists. split; [|reflexivity].
  rewrite sort_length. now apply percentile_index_in_range.
Qed.

(** With five samples or more the knee is accepted. *)
Lemma getAdaptiveTimeout_knee (gaps : list Q) (fallbackPercentile : Q) :
  (5 <= List.length gaps)%nat ->
  let sorted := JS.sort JS.numericCompare_le gaps in
  let kneeIndex := findKneePoint sorted in
  ((0 <? kneeIndex)%nat && (kneeIndex <? List.length sorted - 1)%nat = true)
  /\ getAdaptiveTimeout gaps fallbackPercentile = nth kneeIndex sorted 0%Q.
Proof.
  intros Hn sorted kneeIndex.
  assert (Hk : (0 < kneeIndex < List.length sorted - 1)%nat).
  { apply findKneePoint_interior. unfold sorted. rewrite sort_length. lia. }
  assert (Hb : (0 <? kneeIndex)%nat && (kneeIndex <? List.length sorted - 1)%nat
               = true).
  { apply andb_true_iff. split; apply Nat.ltb_lt; lia. }
  split; [exact Hb|].
  unfold getAdaptiveTimeout.
  destruct (List.length gaps <? 5)%nat eqn:E5; [apply Nat.ltb_lt in E5; lia|].
  fold sorted. fold kneeIndex. now rewrite Hb.
Qed.

Lemma nth_all_Qeq (c : Q) (l : list Q) (i : nat) :
  Forall (fun g => g == c) l -> (i < List.length l)%nat -> nth i l 0%Q == c.
Proof.
  intros H. revert i. induction H as [|g l Hg H IH]; intros i Hi; simpl in *.
  - lia.
  - destruct i as [|i]; [exact Hg | apply IH; lia].
Qed.

Lemma sort_all_Qeq (c : Q) (l : list Q) :
  Forall (fun g => g == c) l ->
  Forall (fun g => g == c) (JS.sort JS.numericCompare_le l).
Proof.
  intros H.
  apply Permutation_Forall with l; [|exact H].
  apply Permutation_sym, sort_permutation.
Qed.

(** * The properties of the specification *)

(** ** The volley: pivot text, participants, identifier *)

(** C1: each line of the pivot text is "HH:MM - <label>: <content>", with
    the label "Me" exactly for the sender that is the numerically smallest
    participant. The code labels by [participants[0]], and [participants] is
    sorted by [sort()] without a comparator, that is by the decimal strings:
    for the senders 9 and 10 the first participant is 10, so the message of
    sender 9 (the smallest) is labelled "Them" and that of sender 10 "Me". *)
Theorem pivot_text_of_nine_and_ten (sha256 : string -> string) :
  exists v,
    buildVolley sha256 turnsOfNineAndTen = Ok v
    /\ Volley.pivot_text v
       = ("10:00 - Them: hi" ++ newline ++ "10:01 - Me: hello")%string.
Proof.
  eexists. split.
  - unfold turnsOfNineAndTen. apply buildVolley_fields.
  - reflexivity.
Qed.

(** C2: the participants of a volley are the distinct sender identifiers in
    ascending numeric order. The code sorts them with [sort()] without a
    comparator, which orders numbers by their decimal strings: the senders
    9 and 10 give [10; 9], not [9; 10]. *)
Theorem participants_of_nine_and_ten (sha256 : string -> string) :
  exists v,
    buildVolley sha256 turnsOfNineAndTen = Ok v
    /\ Volley.participants v = [10; 9]
    /\ Volley.participants v <> [9; 10].
Proof.
  eexists. split.
  - unfold turnsOfNineAndTen. apply buildVolley_fields.
  - split; [reflexivity | discriminate].
Qed.

(** C3: the identifier of a volley is the first 16 characters of the digest
    of its start time, end time and participant list; two volleys built from
    turn lists with the same start time, end time and participant set get the
    same identifier, whatever their turns and messages are. *)
Theorem volley_id_deterministic (sha256 : string -> string)
    (turns1 turns2 : list Turn.t) (v1 v2 : Volley.t) :
  (forall s, String.length (sha256 s) = 64%nat) ->
  buildVolley sha256 turns1 = Ok v1 ->
  buildVolley sha256 turns2 = Ok v2 ->
  Volley.start_time v1 = Volley.start_time v2 ->
  Volley.end_time v1 = Volley.end_time v2 ->
  (forall x, In x (Volley.participants v1) <-> In x (Volley.participants v2)) ->
  Volley.id v1 = Volley.id v2
  /\ String.length (Volley.id v1) = 16%nat
  /\ Volley.id v1
     = JS.substring 0 16
         (sha256 (volleyIdData (Volley.start_time v1) (Volley.end_time v1)
                    (Volley.participants v1))).
Proof.
  intros Hlen H1 H2 Hs He Hp.
  destruct (buildVolley_participants _ _ _ H1) as (N1 & _ & S1).
  destruct (buildVolley_participants _ _ _ H2) as (N2 & _ & S2).
  assert (Epart : Volley.participants v1 = Volley.participants v2).
  { now apply (sorted_nodup_unique defaultOrder defaultOrder_antisym). }
  destruct turns1 as [|a1 r1]; [discriminate|].
  destruct turns2 as [|a2 r2]; [discriminate|].
  rewrite buildVolley_fields in H1, H2.
  injection H1 as <-. injection H2 as <-.
  cbn [Volley.id Volley.start_time Volley.end_time Volley.participants] in *.
  split; [now rewrite Hs, He, Epart|].
  split; [|reflexivity].
  unfold JS.substring. apply substring_prefix_length. rewrite Hlen. lia.
Qed.

Lemma volley_id_deterministic_witness :
  exists v1 v2,
    buildVolley paddedDigest exchangeA = Ok v1
    /\ buildVolley paddedDigest exchangeB = Ok v2
    /\ Volley.id v1 = Volley.id v2
    /\ String.length (Volley.id v1) = 16%nat.
Proof.
  eexists. eexists.
  split; [unfold exchangeA; apply buildVolley_fields|].
  split; [unfold exchangeB; apply buildVolley_fields|].
  refine (let H := volley_id_deterministic paddedDigest exchangeA exchangeB
                     _ _ paddedDigest_length
                     (buildVolley_fields paddedDigest _ _)
                     (buildVolley_fields paddedDigest _ _)
                     eq_refl eq_refl _ in
          conj (proj1 H) (proj1 (proj2 H))).
  intros x. vm_compute. tauto.
Defined.

(** ** Phase 1: messages to turns *)

(** C4: [messagesToTurns] scans the messages in timestamp order and starts a
    new turn exactly when the sender changes or the gap to the previous
    message is strictly greater than the timeout. With T the value of
    [turnTimeout] after the guard of the function (the argument when it is
    supplied and not zero, the timeout derived from the gaps when it is
    omitted or zero), for every message list and every timeout argument: the
    turns partition the sorted messages, consecutive messages inside a turn
    have the same sender and a gap of at most T, and across a turn boundary
    the sender differs or the gap exceeds T (the two cases exclude each
    other). On the scenario with a timeout of 60 seconds the function returns
    three turns, of senders A, B, A; a gap equal to the timeout does not
    split. *)
Theorem messagesToTurns_splits :
  (forall (messages : list Message) (turnTimeout : option Q),
     let T := resolveTurnTimeout (sortByTimestamp messages) turnTimeout in
     exists turns,
       messagesToTurns messages turnTimeout = Ok turns
       /\ flat_map Turn.messages turns = sortByTimestamp messages
       /\ Sorted (fun a b => sent_at a <= sent_at b) (sortByTimestamp messages)
       /\ Forall (wellFormedTurn T) turns
       /\ adjacent (turnBoundary T) turns)
  /\ (forall (sorted : list Message) (T : Q),
        ~ T == 0 -> resolveTurnTimeout sorted (Some T) = T)
  /\ (forall (sorted : list Message) (turnTimeout : option Q),
        falsy turnTimeout = true ->
        resolveTurnTimeout sorted turnTimeout
        = turn_timeout (calculateTimeouts
            (consecutiveGaps (fun m => parseDate (sent_at m))
               (fun m => parseDate (sent_at m)) sorted)))
  /\ (forall (T : Q) (a b : Message), turnBreak T a b <-> ~ sameTurn T a b)
  /\ (exists turns,
        messagesToTurns scenario (Some 60%Q) = Ok turns
        /\ List.length turns = 3%nat
        /\ map Turn.sender_id turns = [1; 2; 1]
        /\ map (fun t => map sent_at (Turn.messages t)) turns
           = [[0; 30000]; [65000; 95000]; [400000]])
  /\ (exists t,
        messagesToTurns gapEqualToTimeout (Some 60%Q) = Ok [t]
        /\ Turn.messages t = gapEqualToTimeout).
Proof.
  split; [|split; [|split; [|split; [|split]]]].
  - intros messages turnTimeout T.
    destruct (messagesToTurns_spec messages turnTimeout) as (turns & E & Hf & Hw & Ha).
    exists turns. repeat split; try assumption.
    apply sortByTimestamp_sorted.
  - apply resolveTurnTimeout_supplied.
  - intros sorted turnTimeout H. unfold resolveTurnTimeout, afterGuard.
    destruct turnTimeout as [q|]; [now rewrite H | reflexivity].
  - apply turnBreak_iff.
  - eexists. split; [vm_compute; reflexivity|]. repeat split.
  - eexists. split; [vm_compute; reflexivity | reflexivity].
Qed.

Lemma messagesToTurns_splits_witness :
  (exists turns,
     messagesToTurns scenario (Some 60%Q) = Ok turns
     /\ flat_map Turn.messages turns = sortByTimestamp scenario
     /\ Forall (wellFormedTurn 60) turns
     /\ adjacent (turnBoundary 60) turns)
  /\ (exists turns,
        messagesToTurns scenario None = Ok turns
        /\ (resolveTurnTimeout (sortByTimestamp scenario) None == 35)%Q
        /\ flat_map Turn.messages turns = sortByTimestamp scenario
        /\ Forall (wellFormedTurn (resolveTurnTimeout (sortByTimestamp scenario) None))
             turns
        /\ adjacent (turnBoundary (resolveTurnTimeout (sortByTimestamp scenario) None))
             turns).
Proof.
  split.
  - destruct (proj1 messagesToTurns_splits scenario (Some 60%Q))
      as (turns & E & Hf & _ & Hw & Ha).
    exists turns.
    split; [exact E|]. split; [exact Hf|]. split; [exact Hw | exact Ha].
  - destruct (proj1 messagesToTurns_splits scenario None)
      as (turns & E & Hf & _ & Hw & Ha).
    exists turns.
    split; [exact E|]. split; [reflexivity|].
    split; [exact Hf|]. split; [exact Hw | exact Ha].
Defined.

(** C5: the turns returned by [messagesToTurns] hold every input message
    once: the concatenation of their message lists is a permutation of the
    input, whatever the timeout argument. *)
Theorem messagesToTurns_covers (messages : list Message) (turnTimeout : option Q) :
  exists turns,
    messagesToTurns messages turnTimeout = Ok turns
    /\ Permutation (flat_map Turn.messages turns) messages.
Proof.
  destruct (messagesToTurns_spec messages turnTimeout) as (turns & E & Hf & _).
  exists turns. split; [exact E|].
  rewrite Hf. apply sortByTimestamp_permutation.
Qed.

(** ** Phase 2: turns to volleys *)

(** C6: [turnsToVolleys] returns volleys that partition the turns in order;
    with T the timeout of the run, every volley has at least one turn,
    consecutive turns inside a volley are at most T apart, and the last turn
    of a volley and the first turn of the next one are more than T apart. *)
Theorem turnsToVolleys_gap_bound (sha256 : string -> string)
    (turns : list Turn.t) (threadletTimeout : option Q) :
  let T := resolveThreadletTimeout turns threadletTimeout in
  exists volleys,
    turnsToVolleys sha256 turns threadletTimeout = Ok volleys
    /\ flat_map Volley.turns volleys = turns
    /\ Forall (fun v =>
         Volley.turns v <> []
         /\ adjacent (fun a b =>
              (getGapSeconds (Turn.end_time a) (Turn.start_time b) <= T)%Q)
              (Volley.turns v)) volleys
    /\ adjacent (fun v1 v2 =>
         exists init a b tail,
           Volley.turns v1 = init ++ [a] /\ Volley.turns v2 = b :: tail
           /\ (T < getGapSeconds (Turn.end_time a) (Turn.start_time b))%Q)
         volleys.
Proof.
  intros T.
  destruct (turnsToVolleys_spec sha256 turns threadletTimeout)
    as (volleys & E & Hflat & Hwf & Hadj).
  exists volleys. split; [exact E|]. split; [exact Hflat|].
  split; [exact Hwf | exact Hadj].
Qed.

(** ** The adaptive timeout and the construction error *)

(** C7: [getAdaptiveTimeout] agrees with [getPercentileTimeout] on fewer
    than five samples and on samples that are all the same value; on
    [1, 1, 1, 1, 1] with percentile 85 it returns 1. *)
Theorem getAdaptiveTimeout_agrees_with_percentile :
  (forall (gaps : list Q) (p : Q),
     (List.length gaps < 5)%nat ->
     getAdaptiveTimeout gaps p = getPercentileTimeout gaps p)
  /\ (forall (gaps : list Q) (p c : Q),
        Forall (fun g => g == c) gaps ->
        getAdaptiveTimeout gaps p == getPercentileTimeout gaps p)
  /\ getAdaptiveTimeout [1; 1; 1; 1; 1]%Q 85 = 1%Q.
Proof.
  assert (Hsmall : forall (gaps : list Q) (p : Q),
             (List.length gaps < 5)%nat ->
             getAdaptiveTimeout gaps p = getPercentileTimeout gaps p).
  { intros gaps p H. unfold getAdaptiveTimeout.
    apply Nat.ltb_lt in H. now rewrite H. }
  split; [exact Hsmall|]. split; [|reflexivity].
  intros gaps p c Hall.
  destruct (Nat.lt_ge_cases (List.length gaps) 5) as [Hlt | Hge].
  - rewrite (Hsmall gaps p Hlt). reflexivity.
  - destruct (getAdaptiveTimeout_knee gaps p Hge) as [Hb ->].
    apply andb_true_iff in Hb. destruct Hb as [_ Hk]. apply Nat.ltb_lt in Hk.
    destruct (getPercentileTimeout_nth gaps p) as (i & Hi & ->).
    { destruct gaps; [simpl in Hge; lia | discriminate]. }
    rewrite !(nth_all_Qeq c).
    + reflexivity.
    + now apply sort_all_Qeq.
    + now rewrite sort_length.
    + now apply sort_all_Qeq.
    + lia.
Qed.

Lemma getAdaptiveTimeout_agrees_with_percentile_witness :
  getAdaptiveTimeout [7; 7; 7; 7; 7; 7]%Q 85
  == getPercentileTimeout [7; 7; 7; 7; 7; 7]%Q 85.
Proof.
  apply (proj1 (proj2 getAdaptiveTimeout_agrees_with_percentile)
           [7; 7; 7; 7; 7; 7]%Q 85%Q 7%Q).
  repeat constructor.
Defined.

(** C8: [buildVolley] raises the construction error exactly on the empty
    turn list. On a non-empty list it returns a volley when the dates it
    converts (the timestamp of every message, the start of the first turn,
    the end of the last turn) are all valid, and it throws the [RangeError]
    of [toISOString] when one of them is the Invalid Date; so it returns a
    volley for every non-empty list of turns over parsed timestamps. *)
Theorem buildVolley_errors (sha256 : string -> string) :
  (forall turns : list Raw.Turn.t,
     Raw.buildVolley sha256 turns
     = Throw (Error "Cannot build volley from empty turns array")
     <-> turns = [])
  /\ (forall turns : list Raw.Turn.t,
        turns <> [] ->
        forallb isValid (datesOfVolley turns) = true ->
        exists v,
          Raw.buildVolley sha256 turns = Ok v /\ Raw.Volley.turns v = turns)
  /\ (forall turns : list Raw.Turn.t,
        turns <> [] ->
        forallb isValid (datesOfVolley turns) = false ->
        Raw.buildVolley sha256 turns = Throw (RangeError "Invalid time value"))
  /\ (forall turns : list Turn.t,
        turns <> [] ->
        exists v,
          buildVolley sha256 turns = Ok v
          /\ Volley.turns v = turns
          /\ Raw.buildVolley sha256 (map rawTurn turns) = Ok (rawVolley v)).
Proof.
  split; [|split; [|split]].
  - intros turns. split.
    + intros H. destruct turns as [|t0 rest]; [reflexivity|].
      destruct (forallb isValid (datesOfVolley (t0 :: rest))) eqn:Hv.
      * destruct (Raw_buildVolley_valid sha256 (t0 :: rest)) as (v & E & _);
          [discriminate | exact Hv | congruence].
      * rewrite (Raw_buildVolley_invalid sha256 (t0 :: rest)) in H;
          [discriminate | discriminate | exact Hv].
    + intros ->. reflexivity.
  - intros turns Hne Hv.
    destruct (Raw_buildVolley_valid sha256 turns Hne Hv) as (v & E & Ht & _).
    now exists v.
  - intros turns. apply Raw_buildVolley_invalid.
  - intros turns Hne.
    destruct (buildVolley_nonempty sha256 turns Hne) as (v & E & Ht & _).
    exists v. split; [exact E|]. split; [exact Ht|].
    rewrite buildVolley_on_valid_dates, E. reflexivity.
Qed.

Lemma buildVolley_errors_witness :
  (exists v,
     Raw.buildVolley paddedDigest (map rawTurn exchangeA) = Ok v
     /\ Raw.Volley.turns v = map rawTurn exchangeA)
  /\ Raw.buildVolley paddedDigest turnOfUnparsedMessage
     = Throw (RangeError "Invalid time value").
Proof.
  split.
  - apply (proj1 (proj2 (buildVolley_errors paddedDigest))).
    + discriminate.
    + reflexivity.
  - apply (proj1 (proj2 (proj2
             (buildVolley_errors paddedDigest)))).
    + discriminate.
    + reflexivity.
Defined.

(** C8 as the specification words it, a volley for every non-empty turn
    list, fails on the turn of a message whose timestamp does not parse:
    the list is not empty and [buildVolley] throws. *)
Lemma buildVolley_of_unparsed_message :
  turnOfUnparsedMessage <> []
  /\ (forall sha256 : string -> string,
        Raw.buildVolley sha256 turnOfUnparsedMessage
        = Throw (RangeError "Invalid time value"))
  /\ (forall sha256 : string -> string,
        ~ exists v, Raw.buildVolley sha256 turnOfUnparsedMessage = Ok v).
Proof.
  split; [discriminate|]. split.
  - intros sha256. reflexivity.
  - intros sha256 [v H]. discriminate H.
Qed.

(** ** Timeouts of zero and the knee *)


(** C10: on five gaps or more [findKneePoint] returns an index strictly
    inside the sorted list, so the check of [getAdaptiveTimeout] passes and
    the knee value [sorted[findKneePoint(sorted)]] is returned. *)
Theorem getAdaptiveTimeout_returns_knee (gaps : list Q) (p : Q) :
  (5 <= List.length gaps)%nat ->
  let sorted := JS.sort JS.numericCompare_le gaps in
  let kneeIndex := findKneePoint sorted in
  (0 < kneeIndex < List.length sorted - 1)%nat
  /\ ((0 <? kneeIndex)%nat && (kneeIndex <? List.length sorted - 1)%nat = true)
  /\ getAdaptiveTimeout gaps p = nth kneeIndex sorted 0%Q.
Proof.
  intros Hn sorted kneeIndex.
  destruct (getAdaptiveTimeout_knee gaps p Hn) as [Hb E].
  split; [|split; [exact Hb | exact E]].
  apply findKneePoint_interior. unfold sorted. rewrite sort_length. lia.
Qed.

Lemma getAdaptiveTimeout_returns_knee_witness :
  let gaps := [5; 1; 100; 3; 2; 4]%Q in
  let sorted := JS.sort JS.numericCompare_le gaps in
  (0 < findKneePoint sorted < List.length sorted - 1)%nat
  /\ getAdaptiveTimeout gaps 85 = nth (findKneePoint sorted) sorted 0%Q.
Proof.
  intros gaps sorted.
  destruct (getAdaptiveTimeout_returns_knee gaps 85%Q) as (H1 & _ & H2).
  - simpl. lia.
  - split; [exact H1 | exact H2].
Defined.

(** * Further properties of the code *)

(** ** Sorting numbers *)

Lemma numericCompare_le_iff (a b : Q) :
  JS.numericCompare_le a b = true <-> (a <= b)%Q.
Proof.
  unfold JS.numericCompare_le. rewrite Qle_bool_iff.
  split; intros H.
  - apply Qle_minus_iff in H. apply Qle_minus_iff.
    setoid_replace (b + - a)%Q with (0 + - (a - b))%Q by ring. exact H.
  - apply Qle_minus_iff. apply Qle_minus_iff in H.
    setoid_replace (0 + - (a - b))%Q with (b + - a)%Q by ring. exact H.
Qed.

Lemma numericCompare_total (a b : Q) :
  JS.numericCompare_le a b = false -> JS.numericCompare_le b a = true.
Proof.
  intros H. apply numericCompare_le_iff.
  destruct (Qlt_le_dec b a) as [Hlt | Hle].
  - now apply Qlt_le_weak.
  - apply numericCompare_le_iff in Hle. congruence.
Qed.

Lemma numeric_sort_sorted (l : list Q) :
  StronglySorted Qle (JS.sort JS.numericCompare_le l).
Proof.
  apply Sorted_StronglySorted.
  - intros a b c. apply Qle_trans.
  - pose proof (sort_sorted JS.numericCompare_le numericCompare_total l) as H.
    induction H as [|x l' Hs IH Hd]; constructor.
    + exact IH.
    + destruct Hd as [|y l'' Hxy]; constructor.
      now apply numericCompare_le_iff.
Qed.

Lemma StronglySorted_nth_le (l : list Q) :
  StronglySorted Qle l ->
  forall i j, (i <= j < List.length l)%nat -> (nth i l 0 <= nth j l 0)%Q.
Proof.
  induction 1 as [|x l Hs IH Hall]; intros i j Hij; simpl in *.
  - lia.
  - destruct i as [|i], j as [|j]; try lia.
    + apply Qle_refl.
    + rewrite Forall_forall in Hall. apply Hall. apply nth_In. lia.
    + apply IH. lia.
Qed.

Lemma sorted_nth_In (gaps : list Q) (i : nat) :
  (i < List.length gaps)%nat ->
  In (nth i (JS.sort JS.numericCompare_le gaps) 0%Q) gaps.
Proof.
  intros Hi. apply (sort_In JS.numericCompare_le). apply nth_In.
  now rewrite sort_length.
Qed.

Lemma sorted_first_le (gaps : list Q) (g : Q) :
  In g gaps -> (nth 0 (JS.sort JS.numericCompare_le gaps) 0 <= g)%Q.
Proof.
  intros Hg. apply (sort_In JS.numericCompare_le) in Hg.
  destruct (In_nth _ _ 0%Q Hg) as (i & Hi & <-).
  apply StronglySorted_nth_le; [apply numeric_sort_sorted | lia].
Qed.

Lemma sorted_last_ge (gaps : list Q) (g : Q) :
  In g gaps ->
  (g <= nth (List.length gaps - 1) (JS.sort JS.numericCompare_le gaps) 0)%Q.
Proof.
  intros Hg. apply (sort_In JS.numericCompare_le) in Hg.
  destruct (In_nth _ _ 0%Q Hg) as (i & Hi & <-).
  rewrite sort_length in Hi.
  apply StronglySorted_nth_le; [apply numeric_sort_sorted|].
  rewrite sort_length. lia.
Qed.

(** ** Percentile timeouts *)

Lemma getPercentileTimeout_index (gaps : list Q) (percentile : Q) :
  gaps <> [] ->
  getPercentileTimeout gaps percentile
  = nth (percentileIndex (List.length gaps) percentile)
      (JS.sort JS.numericCompare_le gaps) 0%Q.
Proof.
  intros Hne. unfold getPercentileTimeout, percentileIndex.
  destruct gaps as [|g gaps]; [congruence|].
  change (List.length (g :: gaps) =? 0)%nat with false. cbv zeta.
  now rewrite sort_length.
Qed.

Lemma percentileIndex_lt (n : nat) (percentile : Q) :
  (0 < n)%nat -> (percentileIndex n percentile < n)%nat.
Proof. unfold percentileIndex. lia. Qed.

Lemma percentileIndex_monotone (n : nat) (p1 p2 : Q) :
  (p1 <= p2)%Q -> (percentileIndex n p1 <= percentileIndex n p2)%nat.
Proof.
  intros H. unfold percentileIndex.
  assert (Hc : Qceiling ((p1 / 100) * inject_Z (Z.of_nat n))
               <= Qceiling ((p2 / 100) * inject_Z (Z.of_nat n))).
  { apply Qceiling_resp_le. apply Qmult_le_compat_r.
    - unfold Qdiv. apply Qmult_le_compat_r; [exact H | discriminate].
    - change 0%Q with (inject_Z 0). rewrite <- Zle_Qle. lia. }
  lia.
Qed.

Lemma percentileIndex_top (n : nat) (p : Q) :
  (100 <= p)%Q -> percentileIndex n p = (n - 1)%nat.
Proof.
  intros H. unfold percentileIndex.
  assert (Hc : Z.of_nat n <= Qceiling ((p / 100) * inject_Z (Z.of_nat n))).
  { rewrite <- (Qceiling_Z (Z.of_nat n)) at 1. apply Qceiling_resp_le.
    setoid_replace (inject_Z (Z.of_nat n))
      with ((100 / 100) * inject_Z (Z.of_nat n))%Q at 1 by field.
    apply Qmult_le_compat_r.
    - unfold Qdiv. apply Qmult_le_compat_r; [exact H | discriminate].
    - change 0%Q with (inject_Z 0). rewrite <- Zle_Qle. lia. }
  lia.
Qed.

Lemma percentileIndex_bottom (n : nat) (p : Q) :
  (p <= 0)%Q -> percentileIndex n p = 0%nat.
Proof.
  intros H. unfold percentileIndex.
  assert (Hc : Qceiling ((p / 100) * inject_Z (Z.of_nat n)) <= 0).
  { apply Z.le_trans with (Qceiling (inject_Z 0)); [|now rewrite Qceiling_Z].
    apply Qceiling_resp_le.
    setoid_replace (inject_Z 0) with ((0 / 100) * inject_Z (Z.of_nat n))%Q
      by (unfold Qdiv; ring).
    apply Qmult_le_compat_r.
    - unfold Qdiv. apply Qmult_le_compat_r; [exact H | discriminate].
    - change 0%Q with (inject_Z 0). rewrite <- Zle_Qle. lia. }
  lia.
Qed.

Lemma getPercentileTimeout_In (gaps : list Q) (percentile : Q) :
  gaps <> [] -> In (getPercentileTimeout gaps percentile) gaps.
Proof.
  intros Hne. rewrite getPercentileTimeout_index by exact Hne.
  apply sorted_nth_In. apply percentileIndex_lt.
  destruct gaps; [congruence | simpl; lia].
Qed.

Lemma getPercentileTimeout_le (gaps : list Q) (p1 p2 : Q) :
  (p1 <= p2)%Q ->
  (getPercentileTimeout gaps p1 <= getPercentileTimeout gaps p2)%Q.
Proof.
  intros H. destruct gaps as [|g gaps].
  - apply Qle_refl.
  - rewrite !getPercentileTimeout_index by discriminate.
    apply StronglySorted_nth_le; [apply numeric_sort_sorted|].
    split; [now apply percentileIndex_monotone|].
    rewrite sort_length. apply percentileIndex_lt. simpl. lia.
Qed.

(** X1: the percentile timeout of a non-empty gap list is one of its gaps;
    of the empty list it is the constant 300. *)
Theorem getPercentileTimeout_is_a_gap (gaps : list Q) (percentile : Q) :
  (gaps = [] -> getPercentileTimeout gaps percentile = 300%Q)
  /\ (gaps <> [] -> In (getPercentileTimeout gaps percentile) gaps).
Proof.
  split.
  - intros ->. reflexivity.
  - apply getPercentileTimeout_In.
Qed.

Lemma getPercentileTimeout_is_a_gap_witness :
  In (getPercentileTimeout [10; 20; 30; 40; 50]%Q 50) [10; 20; 30; 40; 50]%Q.
Proof.
  apply (proj2 (getPercentileTimeout_is_a_gap [10; 20; 30; 40; 50]%Q 50)).
  discriminate.
Defined.

(** X2: a higher percentile never gives a smaller timeout. *)
Theorem getPercentileTimeout_monotone (gaps : list Q) (p1 p2 : Q) :
  (p1 <= p2)%Q ->
  (getPercentileTimeout gaps p1 <= getPercentileTimeout gaps p2)%Q.
Proof. apply getPercentileTimeout_le. Qed.

Lemma getPercentileTimeout_monotone_witness :
  (getPercentileTimeout [40; 10; 30; 20]%Q 70
   <= getPercentileTimeout [40; 10; 30; 20]%Q 95)%Q.
Proof.
  apply (getPercentileTimeout_monotone [40; 10; 30; 20]%Q 70 95).
  discriminate.
Defined.

(** X3: at a percentile of 100 or more the timeout is the largest gap, at a
    percentile of 0 or less the smallest. *)
Theorem getPercentileTimeout_extremes (gaps : list Q) (p g : Q) :
  In g gaps ->
  ((100 <= p)%Q -> (g <= getPercentileTimeout gaps p)%Q)
  /\ ((p <= 0)%Q -> (getPercentileTimeout gaps p <= g)%Q).
Proof.
  intros Hg.
  assert (Hne : gaps <> []) by (destruct gaps; [contradiction | discriminate]).
  rewrite getPercentileTimeout_index by exact Hne.
  split; intros Hp.
  - rewrite percentileIndex_top by exact Hp. now apply sorted_last_ge.
  - rewrite percentileIndex_bottom by exact Hp. now apply sorted_first_le.
Qed.

Lemma getPercentileTimeout_extremes_witness :
  (20 <= getPercentileTimeout [40; 10; 30; 20]%Q 100)%Q
  /\ (getPercentileTimeout [40; 10; 30; 20]%Q 0 <= 20)%Q.
Proof.
  destruct (getPercentileTimeout_extremes [40; 10; 30; 20]%Q 100 20%Q) as [H1 _].
  { simpl. auto. }
  destruct (getPercentileTimeout_extremes [40; 10; 30; 20]%Q 0 20%Q) as [_ H2].
  { simpl. auto. }
  split; [apply H1 | apply H2]; discriminate.
Defined.

(** ** Knee index, adaptive timeout, the timeout triple *)

(** X4: [findKneePoint] returns an index of its argument whenever the
    argument is non-empty: the middle index below three values, an index
    strictly between the first and the last one from three values on. *)
Theorem findKneePoint_in_bounds (values : list Q) :
  values <> [] ->
  (findKneePoint values < List.length values)%nat
  /\ ((List.length values < 3)%nat ->
      findKneePoint values = (List.length values / 2)%nat)
  /\ ((3 <= List.length values)%nat ->
      (0 < findKneePoint values < List.length values - 1)%nat).
Proof.
  intros Hne.
  assert (Hpos : (0 < List.length values)%nat).
  { destruct values; [congruence | simpl; lia]. }
  assert (Hsmall : (List.length values < 3)%nat ->
                   findKneePoint values = (List.length values / 2)%nat).
  { intros H. unfold findKneePoint. apply Nat.ltb_lt in H. now rewrite H. }
  split; [|split; [exact Hsmall | apply findKneePoint_interior]].
  destruct (Nat.lt_ge_cases (List.length values) 3) as [Hlt | Hge].
  - rewrite (Hsmall Hlt). apply Nat.div_lt; lia.
  - pose proof (findKneePoint_interior values Hge). lia.
Qed.

Lemma findKneePoint_in_bounds_witness :
  (findKneePoint [1; 2; 3; 4; 100]%Q < 5)%nat.
Proof.
  apply (proj1 (findKneePoint_in_bounds [1; 2; 3; 4; 100]%Q ltac:(discriminate))).
Defined.

Lemma getAdaptiveTimeout_In (gaps : list Q) (fallbackPercentile : Q) :
  gaps <> [] -> In (getAdaptiveTimeout gaps fallbackPercentile) gaps.
Proof.
  intros Hne.
  destruct (Nat.lt_ge_cases (List.length gaps) 5) as [Hlt | Hge].
  - unfold getAdaptiveTimeout. apply Nat.ltb_lt in Hlt. rewrite Hlt.
    now apply getPercentileTimeout_In.
  - destruct (getAdaptiveTimeout_knee gaps fallbackPercentile Hge) as [Hb ->].
    apply andb_true_iff in Hb. destruct Hb as [_ Hk]. apply Nat.ltb_lt in Hk.
    apply sorted_nth_In. rewrite sort_length in Hk. lia.
Qed.

(** X5: the adaptive timeout of a non-empty gap list is one of its gaps,
    whichever branch (percentile or knee) produces it; of the empty list it
    is the constant 300. *)
Theorem getAdaptiveTimeout_is_a_gap (gaps : list Q) (fallbackPercentile : Q) :
  (gaps = [] -> getAdaptiveTimeout gaps fallbackPercentile = 300%Q)
  /\ (gaps <> [] -> In (getAdaptiveTimeout gaps fallbackPercentile) gaps).
Proof.
  split.
  - intros ->. reflexivity.
  - apply getAdaptiveTimeout_In.
Qed.

Lemma getAdaptiveTimeout_is_a_gap_witness :
  In (getAdaptiveTimeout [5; 1; 100; 3; 2; 4]%Q 85) [5; 1; 100; 3; 2; 4]%Q.
Proof.
  apply (proj2 (getAdaptiveTimeout_is_a_gap [5; 1; 100; 3; 2; 4]%Q 85)).
  discriminate.
Defined.

Lemma sorted_nonempty (gaps : list Q) :
  gaps <> [] -> JS.sort JS.numericCompare_le gaps <> [].
Proof.
  intros Hne E. apply Hne. apply length_zero_iff_nil.
  rewrite <- (sort_length JS.numericCompare_le gaps), E. reflexivity.
Qed.

(** X6: on a non-empty gap list the three timeouts of [calculateTimeouts]
    are gaps of the list, and the turn timeout is at most the session
    timeout; on the empty list they are 180, 1800 and 14400. *)
Theorem calculateTimeouts_from_gaps (gaps : list Q) :
  (gaps = [] ->
   calculateTimeouts gaps
   = {| turn_timeout := 180; threadlet_timeout := 1800;
        session_timeout := 14400 |})
  /\ (gaps <> [] ->
      In (turn_timeout (calculateTimeouts gaps)) gaps
      /\ In (threadlet_timeout (calculateTimeouts gaps)) gaps
      /\ In (session_timeout (calculateTimeouts gaps)) gaps
      /\ (turn_timeout (calculateTimeouts gaps)
          <= session_timeout (calculateTimeouts gaps))%Q).
Proof.
  split; [intros ->; reflexivity|].
  intros Hne. unfold calculateTimeouts.
  destruct gaps as [|g gaps]; [congruence|].
  change (List.length (g :: gaps) =? 0)%nat with false.
  cbn [turn_timeout threadlet_timeout session_timeout].
  pose proof (sorted_nonempty (g :: gaps) Hne) as Hs.
  repeat split.
  - apply (sort_In JS.numericCompare_le).
    now apply getPercentileTimeout_In.
  - apply (sort_In JS.numericCompare_le).
    now apply getAdaptiveTimeout_In.
  - apply (sort_In JS.numericCompare_le).
    now apply getPercentileTimeout_In.
  - apply getPercentileTimeout_le. discriminate.
Qed.

Lemma calculateTimeouts_from_gaps_witness :
  In (threadlet_timeout (calculateTimeouts [30; 35; 30; 305]%Q))
     [30; 35; 30; 305]%Q.
Proof.
  apply (proj2 (calculateTimeouts_from_gaps [30; 35; 30; 305]%Q)).
  discriminate.
Defined.

(** ** Gap statistics *)

Lemma sorted_between_ends (gaps : list Q) :
  let sorted := JS.sort JS.numericCompare_le gaps in
  Forall (fun x => nth 0 sorted 0 <= x
                   /\ x <= nth (List.length sorted - 1) sorted 0)%Q sorted.
Proof.
  intros sorted. apply Forall_forall. intros x Hx.
  unfold sorted in *. rewrite sort_length.
  apply (proj1 (sort_In JS.numericCompare_le gaps x)) in Hx.
  split; [now apply sorted_first_le | now apply sorted_last_ge].
Qed.

(** X7: for a non-empty gap list the order statistics of [analyzeGaps] are
    ordered: min <= median <= max and min <= p70 <= p85 <= p95 <= max, and
    min, max and median are gaps of the list; the knee point is reported
    exactly from five gaps on, and it lies between min and max. (Nothing is
    said of the mean: the code rounds the sum and the quotient.) *)
Theorem analyzeGaps_ordered (gaps : list Q) :
  gaps <> [] ->
  let s := analyzeGaps gaps in
  (gs_min s <= gs_median s <= gs_max s)%Q
  /\ (gs_min s <= gs_p70 s)%Q /\ (gs_p70 s <= gs_p85 s)%Q
  /\ (gs_p85 s <= gs_p95 s)%Q /\ (gs_p95 s <= gs_max s)%Q
  /\ (In (gs_min s) gaps /\ In (gs_median s) gaps /\ In (gs_max s) gaps)
  /\ ((5 <= List.length gaps)%nat ->
      exists k, gs_knee_point s = Some k /\ (gs_min s <= k <= gs_max s)%Q)
  /\ ((List.length gaps < 5)%nat -> gs_knee_point s = None).
Proof.
  intros Hne s. subst s. unfold analyzeGaps.
  destruct gaps as [|g0 gaps0] eqn:Eg; [congruence|].
  change (List.length (g0 :: gaps0) =? 0)%nat with false.
  rewrite <- Eg in *. clear Eg.
  cbn [gs_min gs_max gs_median gs_mean gs_p70 gs_p85 gs_p95 gs_knee_point].
  set (sorted := JS.sort JS.numericCompare_le gaps).
  assert (Hlen : List.length sorted = List.length gaps) by apply sort_length.
  assert (Hpos : (0 < List.length gaps)%nat).
  { destruct gaps; [congruence | simpl; lia]. }
  pose proof (sorted_between_ends gaps) as Hends. fold sorted in Hends.
  cbv zeta in Hends. rewrite Forall_forall in Hends.
  assert (Hs : sorted <> []) by now apply sorted_nonempty.
  assert (Hnth : forall i, (i < List.length sorted)%nat ->
            (nth 0 sorted 0 <= nth i sorted 0
             /\ nth i sorted 0 <= nth (List.length sorted - 1) sorted 0)%Q).
  { intros i Hi. apply Hends. now apply nth_In. }
  assert (Hpct : forall p,
            (nth 0 sorted 0 <= getPercentileTimeout sorted p
             /\ getPercentileTimeout sorted p
                <= nth (List.length sorted - 1) sorted 0)%Q).
  { intros p. apply Hends. now apply getPercentileTimeout_In. }
  split; [apply Hnth; apply Nat.div_lt; lia|].
  split; [apply Hpct|].
  split; [apply getPercentileTimeout_le; discriminate|].
  split; [apply getPercentileTimeout_le; discriminate|].
  split; [apply Hpct|].
  split.
  { repeat split; apply sorted_nth_In; try lia.
    rewrite <- Hlen. apply Nat.div_lt; lia. }
  split.
  - intros H5. assert (E : (5 <=? List.length sorted)%nat = true).
    { apply Nat.leb_le. lia. }
    rewrite E. eexists. split; [reflexivity|].
    apply Hnth.
    assert (H3 : (3 <= List.length sorted)%nat) by lia.
    pose proof (findKneePoint_interior sorted H3). lia.
  - intros H5. assert (E : (5 <=? List.length sorted)%nat = false).
    { apply Nat.leb_gt. lia. }
    now rewrite E.
Qed.

Lemma analyzeGaps_ordered_witness :
  (gs_min (analyzeGaps [5; 1; 100; 3; 2; 4]%Q)
   <= gs_median (analyzeGaps [5; 1; 100; 3; 2; 4]%Q)
   <= gs_max (analyzeGaps [5; 1; 100; 3; 2; 4]%Q))%Q.
Proof.
  apply (analyzeGaps_ordered [5; 1; 100; 3; 2; 4]%Q).
  discriminate.
Defined.

(** ** Turns: timing and order *)

Lemma StronglySorted_app_inv {A : Type} (R : A -> A -> Prop) (l1 l2 : list A) :
  StronglySorted R (l1 ++ l2) ->
  StronglySorted R l1 /\ StronglySorted R l2
  /\ (forall a b, In a l1 -> In b l2 -> R a b).
Proof.
  induction l1 as [|x l1 IH]; simpl; intros H.
  - split; [constructor|]. split; [exact H|]. intros a b [].
  - inversion H as [|? ? Hs Hall]; subst.
    destruct (IH Hs) as (S1 & S2 & Hcross).
    rewrite Forall_app in Hall. destruct Hall as [H1 H2].
    split; [now constructor|]. split; [exact S2|].
    intros a b [<- | Ha] Hb.
    + rewrite Forall_forall in H2. now apply H2.
    + now apply Hcross.
Qed.

Lemma sortByTimestamp_strongly_sorted (messages : list Message) :
  StronglySorted (fun a b => sent_at a <= sent_at b) (sortByTimestamp messages).
Proof.
  apply Sorted_StronglySorted.
  - intros a b c. apply Z.le_trans.
  - apply sortByTimestamp_sorted.
Qed.

Lemma last_in_cons {A : Type} (x : A) (l : list A) : In (last l x) (x :: l).
Proof.
  destruct l as [|y l]; [now left|].
  destruct (@exists_last A (y :: l)) as (l' & a & E); [discriminate|].
  rewrite E, last_last. right. rewrite <- E.
  rewrite E. apply in_or_app. right. now left.
Qed.

Lemma createTurn_fields (msgs : list Message) (sender : Z) (t : Turn.t) :
  createTurn msgs sender = Ok t ->
  exists m0 rest,
    msgs = m0 :: rest
    /\ Turn.messages t = msgs /\ Turn.sender_id t = sender
    /\ Turn.start_time t = sent_at m0
    /\ Turn.end_time t = sent_at (last rest m0).
Proof.
  unfold createTurn, parseDate. destruct msgs as [|m0 rest]; [discriminate|].
  intros H. injection H as <-. exists m0, rest. cbn.
  repeat split. destruct rest; reflexivity.
Qed.

Lemma createTurn_made (msgs : list Message) (sender : Z) (t : Turn.t) :
  createTurn msgs sender = Ok t -> madeByCreateTurn t.
Proof.
  intros H. unfold madeByCreateTurn.
  destruct (createTurn_fields _ _ _ H) as (m0 & rest & _ & -> & -> & _).
  exact H.
Qed.

Lemma turnsLoop_made (T : Q) (rest : list Message) :
  forall prev turns cur sender result,
    turnsLoop T prev rest turns cur sender = Ok result ->
    Forall madeByCreateTurn turns ->
    Forall madeByCreateTurn result.
Proof.
  induction rest as [|curr rest IH]; intros prev turns cur sender result H Hacc.
  - simpl in H. destruct (0 <? List.length cur)%nat.
    + destruct (createTurn cur sender) as [t|e] eqn:Et; [|discriminate].
      simpl in H. injection H as <-.
      apply Forall_app. split; [exact Hacc|].
      constructor; [|constructor]. now apply createTurn_made with cur sender.
    + injection H as <-. exact Hacc.
  - cbn [turnsLoop] in H.
    destruct (negb (from_id curr =? sender)
              || Qgt_bool (getGapSeconds (parseDate (sent_at prev))
                             (parseDate (sent_at curr))) T).
    + destruct (createTurn cur sender) as [t|e] eqn:Et; [|discriminate].
      cbn [bind] in H. apply (IH _ _ _ _ _ H).
      apply Forall_app. split; [exact Hacc|].
      constructor; [|constructor]. now apply createTurn_made with cur sender.
    + apply (IH _ _ _ _ _ H). exact Hacc.
Qed.

Lemma messagesToTurns_made (messages : list Message) (turnTimeout : option Q)
    (turns : list Turn.t) :
  messagesToTurns messages turnTimeout = Ok turns ->
  Forall madeByCreateTurn turns.
Proof.
  unfold messagesToTurns. destruct (sortByTimestamp messages) as [|m0 rest].
  - intros H. injection H as <-. constructor.
  - intros H. apply (turnsLoop_made _ _ _ _ _ _ _ H). constructor.
Qed.

Lemma turns_chronological (turns : list Turn.t) :
  StronglySorted (fun a b => sent_at a <= sent_at b)
    (flat_map Turn.messages turns) ->
  Forall madeByCreateTurn turns ->
  Forall turnTiming turns
  /\ adjacent (fun t1 t2 => Turn.end_time t1 <= Turn.start_time t2) turns.
Proof.
  induction turns as [|t ts IH]; intros Hs Hm.
  - split; [constructor | exact I].
  - inversion Hm as [|? ? Ht Hts]; subst.
    cbn [flat_map] in Hs.
    destruct (StronglySorted_app_inv _ _ _ Hs) as (S1 & S2 & Hcross).
    destruct (IH S2 Hts) as [IH1 IH2].
    destruct (createTurn_fields _ _ _ Ht) as (m0 & rest & Em & _ & _ & Es & Ee).
    assert (Hlast : In (last rest m0) (Turn.messages t)).
    { rewrite Em. apply last_in_cons. }
    split.
    + constructor; [|exact IH1].
      exists m0, rest. repeat split; try assumption.
      rewrite Es, Ee. rewrite Em in S1, Hlast.
      inversion S1 as [|? ? _ Hall]; subst.
      destruct Hlast as [<- | Hin]; [apply Z.le_refl|].
      rewrite Forall_forall in Hall. now apply Hall.
    + destruct ts as [|t2 ts']; [exact I|].
      split; [|exact IH2].
      inversion Hts as [|? ? Ht2 _]; subst.
      destruct (createTurn_fields _ _ _ Ht2) as (n0 & rest2 & En & _ & _ & Es2 & _).
      rewrite Ee, Es2. apply Hcross; [exact Hlast|].
      cbn [flat_map]. apply in_or_app. left. rewrite En. now left.
Qed.

Lemma flat_map_length_ge {A B : Type} (f : A -> list B) (l : list A) :
  Forall (fun x => f x <> []) l ->
  (List.length l <= List.length (flat_map f l))%nat.
Proof.
  induction 1 as [|x l Hx Hall IH]; simpl.
  - lia.
  - rewrite length_app. destruct (f x); [congruence | simpl; lia].
Qed.

(** X8: whatever the timeout argument, [messagesToTurns] returns turns that
    start at their first message and end at their last (so no turn ends
    before it starts), whose messages all carry the turn's sender, and that
    follow each other in time; there are at most as many turns as messages,
    and none exactly for the empty input. *)
Theorem messagesToTurns_timing (messages : list Message) (turnTimeout : option Q) :
  exists turns,
    messagesToTurns messages turnTimeout = Ok turns
    /\ Forall (fun t =>
         (exists m0 rest,
            Turn.messages t = m0 :: rest
            /\ Turn.start_time t = sent_at m0
            /\ Turn.end_time t = sent_at (last rest m0)
            /\ Turn.start_time t <= Turn.end_time t)
         /\ Forall (fun m => from_id m = Turn.sender_id t) (Turn.messages t))
         turns
    /\ adjacent (fun t1 t2 => Turn.end_time t1 <= Turn.start_time t2) turns
    /\ (List.length turns <= List.length messages)%nat
    /\ (turns = [] <-> messages = []).
Proof.
  destruct (messagesToTurns_spec messages turnTimeout)
    as (turns & E & Hflat & Hwf & _).
  pose proof (messagesToTurns_made _ _ _ E) as Hmade.
  pose proof (sortByTimestamp_strongly_sorted messages) as Hs.
  rewrite <- Hflat in Hs.
  destruct (turns_chronological turns Hs Hmade) as [Htime Hadj].
  assert (Hlen : List.length (flat_map Turn.messages turns)
                 = List.length messages).
  { rewrite Hflat. apply Permutation_length, sortByTimestamp_permutation. }
  exists turns. split; [exact E|].
  split.
  { rewrite Forall_forall in *. intros t Ht. split; [now apply Htime|].
    now destruct (Hwf t Ht) as (_ & Hsender & _). }
  split; [exact Hadj|].
  split.
  { rewrite <- Hlen. apply flat_map_length_ge.
    rewrite Forall_forall in *. intros t Ht. now destruct (Hwf t Ht). }
  split.
  - intros ->. simpl in Hlen. symmetry in Hlen.
    now apply length_zero_iff_nil in Hlen.
  - intros ->. unfold messagesToTurns in E. simpl in E. now injection E as <-.
Qed.

(** ** Volleys: depth and participants *)

Lemma depth_fold (turns : list Turn.t) :
  forall (depth : nat) (prev : Z),
    fst (fold_left depthStep turns (depth, Some prev))
    = (depth + countChanges prev (map Turn.sender_id turns))%nat.
Proof.
  induction turns as [|t turns IH]; intros depth prev; simpl.
  - lia.
  - destruct (Turn.sender_id t =? prev); simpl; rewrite IH; lia.
Qed.

Lemma depth_of_turns (t0 : Turn.t) (rest : list Turn.t) :
  fst (fold_left depthStep (t0 :: rest) (O, None))
  = countChanges (Turn.sender_id t0) (map Turn.sender_id rest).
Proof. simpl. now rewrite depth_fold. Qed.

Lemma countChanges_le_length (senders : list Z) :
  forall prev, (countChanges prev senders <= List.length senders)%nat.
Proof.
  induction senders as [|s rest IH]; intros prev; simpl.
  - lia.
  - specialize (IH s). destruct (s =? prev); lia.
Qed.

Lemma countChanges_zero (senders : list Z) :
  forall prev,
    countChanges prev senders = O <-> Forall (fun s => s = prev) senders.
Proof.
  induction senders as [|s rest IH]; intros prev; simpl.
  - split; [constructor | reflexivity].
  - destruct (Z.eqb_spec s prev) as [-> | Hne]; simpl.
    + rewrite IH. split.
      * intros H. now constructor.
      * intros H. now inversion H.
    + split; [discriminate|]. intros H. inversion H. contradiction.
Qed.

Lemma uniq_from_length_le_changes (senders : list Z) :
  forall (seen : list Z) (prev : Z),
    In prev seen ->
    (List.length (JS.uniq_from seen senders) <= countChanges prev senders)%nat.
Proof.
  induction senders as [|s rest IH]; intros seen prev Hprev; simpl.
  - lia.
  - destruct (existsb (Z.eqb s) seen) eqn:E.
    + apply existsb_eqb_In in E. specialize (IH seen s E). lia.
    + assert (Hs : ~ In s seen).
      { intros H. apply existsb_eqb_In in H. congruence. }
      destruct (Z.eqb_spec s prev) as [-> | Hne]; [contradiction|].
      simpl. specialize (IH (s :: seen) s (or_introl eq_refl)). lia.
Qed.

Lemma uniq_from_nil_iff (senders seen : list Z) :
  JS.uniq_from seen senders = [] <-> Forall (fun s => In s seen) senders.
Proof.
  revert seen. induction senders as [|s rest IH]; intros seen; simpl.
  - split; [constructor | reflexivity].
  - destruct (existsb (Z.eqb s) seen) eqn:E.
    + apply existsb_eqb_In in E. rewrite IH. split.
      * intros H. now constructor.
      * intros H. now inversion H.
    + split; [discriminate|]. intros H. inversion H as [|? ? Hs _]; subst.
      apply existsb_eqb_In in Hs. congruence.
Qed.

Lemma sortedIds_length (t0 : Z) (rest : list Z) :
  List.length (sortedIds (t0 :: rest))
  = S (List.length (JS.uniq_from [t0] rest)).
Proof. unfold sortedIds. rewrite sort_length. reflexivity. Qed.

(** X9: in a volley built by [buildVolley] the depth counts the turns whose
    sender differs from the turn before; there are at most depth + 1
    participants and at least depth + 1 turns, and the depth is 0 exactly
    when the volley has a single participant. *)
Theorem buildVolley_depth (sha256 : string -> string) (turns : list Turn.t)
    (v : Volley.t) :
  buildVolley sha256 turns = Ok v ->
  (exists t0 rest,
     turns = t0 :: rest
     /\ Volley.depth v
        = countChanges (Turn.sender_id t0) (map Turn.sender_id rest))
  /\ (1 <= List.length (Volley.participants v) <= Volley.depth v + 1)%nat
  /\ (Volley.depth v + 1 <= List.length turns)%nat
  /\ (Volley.depth v = O <-> List.length (Volley.participants v) = 1%nat).
Proof.
  intros H. destruct turns as [|t0 rest]; [discriminate|].
  rewrite buildVolley_fields in H. injection H as <-.
  cbn [Volley.depth Volley.participants].
  rewrite depth_fold. cbn [Nat.add]. rewrite sortedIds_length.
  pose proof (uniq_from_length_le_changes (map Turn.sender_id rest)
                [Turn.sender_id t0] (Turn.sender_id t0) (or_introl eq_refl)) as H1.
  pose proof (countChanges_le_length (map Turn.sender_id rest)
                (Turn.sender_id t0)) as H2.
  rewrite length_map in H2.
  split; [exists t0, rest; split; reflexivity|].
  split; [lia|]. split; [simpl; lia|].
  rewrite countChanges_zero. split.
  - intros Hall. f_equal. apply length_zero_iff_nil. apply uniq_from_nil_iff.
    apply Forall_impl with (2 := Hall). intros s ->. now left.
  - intros Hlen. injection Hlen as Hlen. apply length_zero_iff_nil in Hlen.
    apply uniq_from_nil_iff in Hlen.
    apply Forall_impl with (2 := Hlen). intros s [<- | []]. reflexivity.
Qed.

Lemma buildVolley_depth_witness :
  exists v,
    buildVolley paddedDigest exchangeB = Ok v
    /\ (List.length (Volley.participants v) <= Volley.depth v + 1)%nat.
Proof.
  eexists. split; [unfold exchangeB; apply buildVolley_fields|].
  apply (buildVolley_depth paddedDigest exchangeB _
           (buildVolley_fields paddedDigest _ _)).
Defined.

(** ** Volleys of a run *)

Section VolleyRun.
Variable sha256 : string -> string.

Lemma buildVolley_made (turns : list Turn.t) (v : Volley.t) :
  buildVolley sha256 turns = Ok v -> madeByBuildVolley sha256 v.
Proof.
  intros H. unfold madeByBuildVolley.
  destruct turns as [|t0 rest]; [discriminate|].
  pose proof H as H'. rewrite buildVolley_fields in H'. injection H' as <-.
  exact H.
Qed.

Lemma volleysLoop_made (T : Q) (rest : list Turn.t) :
  forall prev volleys cur result,
    volleysLoop sha256 T prev rest volleys cur = Ok result ->
    Forall (madeByBuildVolley sha256) volleys ->
    Forall (madeByBuildVolley sha256) result.
Proof.
  induction rest as [|curr rest IH]; intros prev volleys cur result H Hacc.
  - simpl in H. destruct (0 <? List.length cur)%nat.
    + destruct (buildVolley sha256 cur) as [v|e] eqn:Ev; [|discriminate].
      simpl in H. injection H as <-.
      apply Forall_app. split; [exact Hacc|].
      constructor; [|constructor]. now apply buildVolley_made with cur.
    + injection H as <-. exact Hacc.
  - cbn [volleysLoop] in H.
    destruct (Qgt_bool (getGapSeconds (Turn.end_time prev)
                          (Turn.start_time curr)) T).
    + destruct (buildVolley sha256 cur) as [v|e] eqn:Ev; [|discriminate].
      cbn [bind] in H. apply (IH _ _ _ _ H).
      apply Forall_app. split; [exact Hacc|].
      constructor; [|constructor]. now apply buildVolley_made with cur.
    + apply (IH _ _ _ _ H). exact Hacc.
Qed.

Lemma turnsToVolleys_made (turns : list Turn.t) (threadletTimeout : option Q)
    (volleys : list Volley.t) :
  turnsToVolleys sha256 turns threadletTimeout = Ok volleys ->
  Forall (madeByBuildVolley sha256) volleys.
Proof.
  unfold turnsToVolleys. destruct turns as [|t0 rest].
  - intros H. injection H as <-. constructor.
  - intros H. apply (volleysLoop_made _ _ _ _ _ _ H). constructor.
Qed.

Lemma made_volley_fields (v : Volley.t) :
  madeByBuildVolley sha256 v ->
  exists t0 rest,
    Volley.turns v = t0 :: rest
    /\ Volley.start_time v = Turn.start_time t0
    /\ Volley.end_time v = Turn.end_time (last rest t0)
    /\ Volley.message_count v = List.length (volleyMessages v)
    /\ Volley.participants v = sortedIds (map Turn.sender_id (Volley.turns v)).
Proof.
  unfold madeByBuildVolley, volleyMessages. intros H.
  destruct (Volley.turns v) as [|t0 rest] eqn:Et; [discriminate|].
  rewrite buildVolley_fields in H. injection H as <-.
  exists t0, rest. cbn. repeat split. destruct rest; reflexivity.
Qed.

Lemma message_count_sum (volleys : list Volley.t) :
  Forall (madeByBuildVolley sha256) volleys ->
  list_sum (map Volley.message_count volleys)
  = List.length (flat_map Turn.messages (flat_map Volley.turns volleys)).
Proof.
  induction 1 as [|v vs Hv Hvs IH]; simpl.
  - reflexivity.
  - destruct (made_volley_fields v Hv) as (t0 & rest & _ & _ & _ & Hc & _).
    rewrite flat_map_app, length_app, IH, Hc. reflexivity.
Qed.

End VolleyRun.

(** X10: each volley that [turnsToVolleys] returns is what [buildVolley]
    makes of that volley's own turns: it starts with its first turn, ends
    with its last turn, and counts the messages of its turns. The message
    counts add up to the number of messages of the input turns; there are at
    most as many volleys as turns, and none exactly for the empty input. *)
Theorem turnsToVolleys_volleys (sha256 : string -> string)
    (turns : list Turn.t) (threadletTimeout : option Q)
    (volleys : list Volley.t) :
  turnsToVolleys sha256 turns threadletTimeout = Ok volleys ->
  Forall (fun v =>
    buildVolley sha256 (Volley.turns v) = Ok v
    /\ exists t0 rest,
         Volley.turns v = t0 :: rest
         /\ Volley.start_time v = Turn.start_time t0
         /\ Volley.end_time v = Turn.end_time (last rest t0)
         /\ Volley.message_count v
            = List.length (flat_map Turn.messages (Volley.turns v)))
    volleys
  /\ list_sum (map Volley.message_count volleys)
     = List.length (flat_map Turn.messages turns)
  /\ (List.length volleys <= List.length turns)%nat
  /\ (volleys = [] <-> turns = []).
Proof.
  intros E.
  destruct (turnsToVolleys_spec sha256 turns threadletTimeout)
    as (volleys' & E' & Hflat & Hwf & _).
  rewrite E in E'. injection E' as <-.
  pose proof (turnsToVolleys_made sha256 _ _ _ E) as Hmade.
  split.
  { rewrite Forall_forall in *. intros v Hv. split; [now apply Hmade|].
    destruct (made_volley_fields sha256 v (Hmade v Hv))
      as (t0 & rest & H1 & H2 & H3 & H4 & _).
    now exists t0, rest. }
  split; [rewrite (message_count_sum sha256 volleys Hmade); now rewrite Hflat|].
  split.
  { rewrite <- Hflat. apply flat_map_length_ge.
    rewrite Forall_forall in *. intros v Hv. now destruct (Hwf v Hv). }
  split.
  - intros ->. now rewrite <- Hflat.
  - intros ->. simpl in E. now injection E as <-.
Qed.

Lemma turnsToVolleys_volleys_witness :
  exists volleys,
    turnsToVolleys paddedDigest exchangeB (Some 15%Q) = Ok volleys
    /\ list_sum (map Volley.message_count volleys) = 4%nat
    /\ (List.length volleys <= 3)%nat.
Proof.
  assert (H : exists volleys,
            turnsToVolleys paddedDigest exchangeB (Some 15%Q) = Ok volleys).
  { eexists. vm_compute. reflexivity. }
  destruct H as [volleys E].
  exists volleys. split; [exact E|].
  destruct (turnsToVolleys_volleys paddedDigest exchangeB (Some 15%Q) volleys E)
    as (_ & Hsum & Hlen & _).
  split; [exact Hsum | exact Hlen].
Defined.

(** ** The volleys of a message list *)

Lemma adjacent_app_inv {A : Type} (R : A -> A -> Prop) (l1 l2 : list A) :
  adjacent R (l1 ++ l2) ->
  adjacent R l1 /\ adjacent R l2
  /\ (forall init a b tail, l1 = init ++ [a] -> l2 = b :: tail -> R a b).
Proof.
  induction l1 as [|x l1 IH]; intros H.
  - split; [exact I|]. split; [exact H|].
    intros init a b tail E. destruct init; discriminate.
  - destruct l1 as [|y l1].
    + simpl in H. split; [exact I|].
      destruct l2 as [|b l2].
      * split; [exact I|]. intros init a b tail _ E. discriminate.
      * destruct H as [Hxb H]. split; [exact H|].
        intros init a b' tail E E'. injection E' as <- <-.
        destruct init as [|i init]; [now injection E as <- | ].
        injection E as _ E. destruct init; discriminate.
    + change ((x :: y :: l1) ++ l2) with (x :: y :: (l1 ++ l2)) in H.
      destruct H as [Hxy H].
      destruct (IH H) as (H1 & H2 & Hc).
      split; [split; assumption|]. split; [exact H2|].
      intros init a b tail E E'.
      destruct init as [|i init]; [discriminate|].
      injection E as <- E. now apply (Hc init a b tail).
Qed.

Lemma last_cons_default {A : Type} (l : list A) :
  forall x d : A, last (x :: l) d = last l x.
Proof.
  induction l as [|y l IH]; intros x d.
  - reflexivity.
  - change (last (x :: y :: l) d) with (last (y :: l) d).
    now rewrite (IH y d), (IH y x).
Qed.

Lemma chain_first_last (rest : list Turn.t) :
  forall t0,
    Forall (fun t => Turn.start_time t <= Turn.end_time t) (t0 :: rest) ->
    adjacent (fun t1 t2 => Turn.end_time t1 <= Turn.start_time t2) (t0 :: rest) ->
    Turn.start_time t0 <= Turn.end_time (last rest t0).
Proof.
  induction rest as [|t1 rest IH]; intros t0 Hall Hadj.
  - simpl. now inversion Hall.
  - inversion Hall as [|? ? H0 Hall']; subst.
    destruct Hadj as [H01 Hadj].
    specialize (IH t1 Hall' Hadj).
    inversion Hall' as [|? ? H1 _]; subst.
    rewrite last_cons_default. lia.
Qed.

Lemma volleys_chronological (sha256 : string -> string)
    (volleys : list Volley.t) :
  Forall (madeByBuildVolley sha256) volleys ->
  Forall (fun t => Turn.start_time t <= Turn.end_time t)
    (flat_map Volley.turns volleys) ->
  adjacent (fun t1 t2 => Turn.end_time t1 <= Turn.start_time t2)
    (flat_map Volley.turns volleys) ->
  Forall (fun v => Volley.start_time v <= Volley.end_time v) volleys
  /\ adjacent (fun v1 v2 => Volley.end_time v1 <= Volley.start_time v2) volleys.
Proof.
  induction 1 as [|v vs Hv Hvs IH]; intros Hall Hadj.
  - split; [constructor | exact I].
  - cbn [flat_map] in Hall, Hadj.
    apply Forall_app in Hall. destruct Hall as [Hall1 Hall2].
    destruct (adjacent_app_inv _ _ _ Hadj) as (Ha1 & Ha2 & Hcross).
    destruct (IH Hall2 Ha2) as [IH1 IH2].
    destruct (made_volley_fields sha256 v Hv)
      as (t0 & rest & Et & Es & Ee & _ & _).
    split.
    + constructor; [|exact IH1].
      rewrite Es, Ee. rewrite Et in Hall1, Ha1.
      now apply chain_first_last.
    + destruct vs as [|v2 vs']; [exact I|].
      split; [|exact IH2].
      inversion Hvs as [|? ? Hv2 _]; subst.
      destruct (made_volley_fields sha256 v2 Hv2)
        as (b & tail & Et2 & Es2 & _ & _ & _).
      rewrite Ee, Es2.
      destruct (@exists_last _ (t0 :: rest)) as (init & a & Einit);
        [discriminate|].
      assert (Ea : last rest t0 = a).
      { transitivity (last (t0 :: rest) t0).
        - destruct rest; reflexivity.
        - now rewrite Einit, last_last. }
      rewrite Ea.
      apply (Hcross init a b (tail ++ flat_map Volley.turns vs')).
      * now rewrite Et.
      * cbn [flat_map]. now rewrite Et2.
Qed.

Lemma turnTiming_start_le_end (turns : list Turn.t) :
  Forall turnTiming turns ->
  Forall (fun t => Turn.start_time t <= Turn.end_time t) turns.
Proof.
  apply Forall_impl. intros t (m0 & rest & _ & _ & _ & H). exact H.
Qed.

(** On messages with parsed timestamps, those of this model, the two
    phases of [getVolleys] return. *)
Lemma getVolleys_on_parsed_timestamps (sha256 : string -> string)
    (messages : list Message) :
  exists turns volleys,
    messagesToTurns messages None = Ok turns
    /\ turnsToVolleys sha256 turns None = Ok volleys
    /\ getVolleys sha256 messages = Ok volleys.
Proof.
  destruct (messagesToTurns_spec messages None) as (turns & Et & _).
  destruct (turnsToVolleys_spec sha256 turns None) as (volleys & Ev & _).
  exists turns, volleys. split; [exact Et|]. split; [exact Ev|].
  unfold getVolleys. destruct messages as [|m ms].
  - unfold messagesToTurns in Et. simpl in Et. injection Et as <-.
    simpl in Ev. now injection Ev as <-.
  - rewrite Et. exact Ev.
Qed.

(** X11: the volleys that [getVolleys] returns hold every input message
    exactly once, their message counts add up to the number of input
    messages, no volley ends before it starts, consecutive volleys follow
    each other in time, and the result is empty exactly for the empty
    input. *)
Theorem getVolleys_covers (sha256 : string -> string)
    (messages : list Message) (volleys : list Volley.t) :
  getVolleys sha256 messages = Ok volleys ->
  Permutation (flat_map volleyMessages volleys) messages
  /\ list_sum (map Volley.message_count volleys) = List.length messages
  /\ Forall (fun v => Volley.start_time v <= Volley.end_time v) volleys
  /\ adjacent (fun v1 v2 => Volley.end_time v1 <= Volley.start_time v2)
       volleys
  /\ (volleys = [] <-> messages = []).
Proof.
  intros E.
  destruct (getVolleys_on_parsed_timestamps sha256 messages)
    as (turns & volleys' & Et & Ev & E').
  rewrite E in E'. injection E' as <-.
  destruct (messagesToTurns_spec messages None) as (turns' & Et' & Hflat & Hwf & _).
  rewrite Et in Et'. injection Et' as <-.
  pose proof (messagesToTurns_made _ _ _ Et) as Hmade.
  pose proof (sortByTimestamp_strongly_sorted messages) as Hs.
  rewrite <- Hflat in Hs.
  destruct (turns_chronological turns Hs Hmade) as [Htime Hadj].
  destruct (turnsToVolleys_spec sha256 turns None)
    as (volleys' & Ev' & Hvflat & Hvwf & _).
  rewrite Ev in Ev'. injection Ev' as <-.
  pose proof (turnsToVolleys_made sha256 _ _ _ Ev) as Hvmade.
  assert (Hperm : Permutation (flat_map Turn.messages turns) messages).
  { rewrite Hflat. apply sortByTimestamp_permutation. }
  assert (Hall : flat_map volleyMessages volleys = flat_map Turn.messages turns).
  { rewrite <- Hvflat. clear. induction volleys as [|v vs IH]; simpl.
    - reflexivity.
    - rewrite flat_map_app, IH. reflexivity. }
  split; [now rewrite Hall|].
  split.
  { rewrite (message_count_sum sha256 volleys Hvmade), Hvflat.
    now apply Permutation_length. }
  rewrite <- Hvflat in Htime, Hadj.
  destruct (volleys_chronological sha256 volleys Hvmade
              (turnTiming_start_le_end _ Htime) Hadj) as [H1 H2].
  split; [exact H1|]. split; [exact H2|].
  split.
  - intros ->. simpl in Hall. rewrite <- Hall in Hperm.
    apply Permutation_nil in Hperm. exact Hperm.
  - intros ->. simpl in E. now injection E as <-.
Qed.

Lemma getVolleys_covers_witness :
  exists volleys,
    getVolleys paddedDigest scenario = Ok volleys
    /\ Permutation (flat_map volleyMessages volleys) scenario
    /\ list_sum (map Volley.message_count volleys) = 5%nat.
Proof.
  assert (H : exists volleys, getVolleys paddedDigest scenario = Ok volleys).
  { eexists. vm_compute. reflexivity. }
  destruct H as [volleys E].
  exists volleys. split; [exact E|].
  destruct (getVolleys_covers paddedDigest scenario volleys E)
    as (Hperm & Hsum & _).
  split; [exact Hperm | exact Hsum].
Defined.

(** ** Sessions *)

Lemma buildSession_fields (v0 : Volley.t) (rest : list Volley.t) :
  let volleys := v0 :: rest in
  buildSession volleys
  = Ok {| Session.volleys := volleys;
          Session.participants :=
            sortedIds (flat_map Volley.participants volleys);
          Session.start_time := Volley.start_time v0;
          Session.end_time := Volley.end_time (last rest v0);
          Session.duration_minutes :=
            (getGapSeconds (Volley.start_time v0)
               (Volley.end_time (last rest v0)) / 60)%Q |}.
Proof.
  intros volleys. subst volleys. unfold buildSession, sortedIds.
  now rewrite last_cons_default.
Qed.

Lemma buildSession_snoc (init : list Volley.t) (prev : Volley.t) :
  exists s, buildSession (init ++ [prev]) = Ok s
    /\ Session.volleys s = init ++ [prev].
Proof.
  destruct (init ++ [prev]) as [|v0 rest] eqn:E.
  - destruct init; discriminate.
  - eexists. split; [apply buildSession_fields | reflexivity].
Qed.

Lemma buildSession_made (volleys : list Volley.t) (s : Session.t) :
  buildSession volleys = Ok s -> madeByBuildSession s.
Proof.
  intros H. unfold madeByBuildSession.
  destruct volleys as [|v0 rest]; [discriminate|].
  pose proof H as H'. rewrite buildSession_fields in H'. injection H' as <-.
  exact H.
Qed.

Lemma sessionsLoop_spec (T : Q) (rest : list Volley.t) :
  forall (prev : Volley.t) (sessions : list Session.t) (init : list Volley.t),
    adjacent (fun a b => (volleyGap a b <= T)%Q) (init ++ [prev]) ->
    exists s0 new,
      sessionsLoop T prev rest sessions (init ++ [prev])
        = Ok (sessions ++ s0 :: new)
      /\ (exists ext, Session.volleys s0 = (init ++ [prev]) ++ ext)
      /\ flat_map Session.volleys (s0 :: new) = (init ++ [prev]) ++ rest
      /\ Forall (wellFormedSession T) (s0 :: new)
      /\ adjacent (sessionBoundary T) (s0 :: new)
      /\ Forall madeByBuildSession (s0 :: new).
Proof.
  induction rest as [|curr rest IH]; intros prev sessions init Ha.
  - simpl. rewrite snoc_length_pos.
    destruct (buildSession_snoc init prev) as (s & Es & Hv).
    rewrite Es. simpl. exists s, []. split; [reflexivity|].
    split; [exists []; now rewrite app_nil_r|].
    split; [simpl; now rewrite Hv, !app_nil_r|].
    split.
    { constructor; [|constructor]. unfold wellFormedSession. rewrite Hv.
      split; [|exact Ha]. destruct init; discriminate. }
    split; [exact I|].
    constructor; [|constructor]. now apply buildSession_made with (init ++ [prev]).
  - cbn [sessionsLoop]. fold (volleyGap prev curr).
    destruct (Qgt_bool (volleyGap prev curr) T) eqn:Eb.
    + destruct (buildSession_snoc init prev) as (s & Es & Hv).
      rewrite Es. cbn [bind].
      destruct (IH curr (sessions ++ [s]) []) as
        (s1 & new & E1 & [ext Hext] & Hflat & Hwf & Hadj & Hmade).
      { exact I. }
      change ([] ++ [curr]) with [curr] in E1, Hext, Hflat. rewrite E1.
      exists s, (s1 :: new). split; [now rewrite <- app_assoc|].
      split; [exists []; now rewrite app_nil_r|].
      split.
      { change (flat_map Session.volleys (s :: s1 :: new))
          with (Session.volleys s ++ flat_map Session.volleys (s1 :: new)).
        rewrite Hflat, Hv. reflexivity. }
      split.
      { constructor; [|exact Hwf]. unfold wellFormedSession. rewrite Hv.
        split; [|exact Ha]. destruct init; discriminate. }
      split.
      { split; [|exact Hadj].
        exists init, prev, curr, ext. split; [exact Hv|]. split; [exact Hext|].
        now apply Qgt_bool_true. }
      constructor; [|exact Hmade].
      now apply buildSession_made with (init ++ [prev]).
    + apply Qgt_bool_false in Eb.
      destruct (IH curr sessions (init ++ [prev])) as
        (s0 & new & E0 & [ext Hext] & Hflat & Hwf & Hadj & Hmade).
      { now apply adjacent_snoc. }
      rewrite E0. exists s0, new. split; [reflexivity|].
      split; [exists (curr :: ext); rewrite Hext; now rewrite <- !app_assoc|].
      split; [rewrite Hflat; now rewrite <- !app_assoc|].
      repeat split; assumption.
Qed.

Lemma groupVolleysIntoSessions_spec (volleys : list Volley.t) (T : Q) :
  exists sessions,
    groupVolleysIntoSessions volleys T = Ok sessions
    /\ flat_map Session.volleys sessions = volleys
    /\ Forall (wellFormedSession T) sessions
    /\ adjacent (sessionBoundary T) sessions
    /\ Forall madeByBuildSession sessions.
Proof.
  unfold groupVolleysIntoSessions. destruct volleys as [|v0 rest].
  - exists []. repeat split; constructor.
  - destruct (sessionsLoop_spec T rest v0 [] [])
      as (s0 & new & E & _ & Hflat & Hwf & Hadj & Hmade).
    { exact I. }
    exists (s0 :: new). split; [exact E|]. repeat split; assumption.
Qed.

Lemma volleysToSessions_spec (volleys : list Volley.t) (sessionTimeout : option Q) :
  let T := resolveSessionTimeout volleys sessionTimeout in
  exists sessions,
    volleysToSessions volleys sessionTimeout = Ok sessions
    /\ flat_map Session.volleys sessions = volleys
    /\ Forall (wellFormedSession T) sessions
    /\ adjacent (sessionBoundary T) sessions
    /\ Forall madeByBuildSession sessions.
Proof.
  intros T. subst T. unfold volleysToSessions.
  destruct volleys as [|v0 rest].
  - exists []. repeat split; constructor.
  - apply groupVolleysIntoSessions_spec.
Qed.

Lemma getGapSeconds_nonneg (d1 d2 : Z) : (0 <= getGapSeconds d1 d2)%Q.
Proof.
  unfold getGapSeconds. apply Qle_shift_div_l; [reflexivity|].
  setoid_replace (0 * 1000)%Q with 0%Q by ring. apply Qabs_nonneg.
Qed.

(** X12: grouping volleys into sessions never throws. The sessions
    partition the volleys in order, every session has at least one volley,
    consecutive volleys inside a session are at most the timeout apart, and
    the last volley of a session and the first of the next are more than the
    timeout apart. [groupVolleysIntoSessions] does this for the timeout it is
    given (a timeout of 0 included), [volleysToSessions] for the value of
    [sessionTimeout] after its guard. *)
Theorem sessions_gap_bound (volleys : list Volley.t) :
  (forall T : Q,
     exists sessions,
       groupVolleysIntoSessions volleys T = Ok sessions
       /\ flat_map Session.volleys sessions = volleys
       /\ Forall (fun s =>
            Session.volleys s <> []
            /\ adjacent (fun a b =>
                 (getGapSeconds (Volley.end_time a) (Volley.start_time b) <= T)%Q)
                 (Session.volleys s)) sessions
       /\ adjacent (fun s1 s2 =>
            exists init a b tail,
              Session.volleys s1 = init ++ [a] /\ Session.volleys s2 = b :: tail
              /\ (T < getGapSeconds (Volley.end_time a) (Volley.start_time b))%Q)
            sessions
       /\ (List.length sessions <= List.length volleys)%nat)
  /\ (forall sessionTimeout : option Q,
        volleysToSessions volleys sessionTimeout
        = groupVolleysIntoSessions volleys
            (resolveSessionTimeout volleys sessionTimeout)).
Proof.
  split.
  - intros T.
    destruct (groupVolleysIntoSessions_spec volleys T)
      as (sessions & E & Hflat & Hwf & Hadj & _).
    exists sessions. split; [exact E|]. split; [exact Hflat|].
    split; [exact Hwf|]. split; [exact Hadj|].
    rewrite <- Hflat. apply flat_map_length_ge.
    rewrite Forall_forall in *. intros s Hs. now destruct (Hwf s Hs).
  - intros sessionTimeout. unfold volleysToSessions.
    destruct volleys; reflexivity.
Qed.

(** X13: a session built by [buildSession] starts with its first volley and
    ends with its last one; its participants are, without repetition, the
    participants of its volleys; its duration in minutes is the gap from
    start to end divided by 60, and is never negative. On the empty list
    [buildSession] throws. *)
Theorem buildSession_session (volleys : list Volley.t) :
  (volleys = [] -> exists e, buildSession volleys = Throw e)
  /\ (forall s,
        buildSession volleys = Ok s ->
        Session.volleys s = volleys
        /\ (exists v0 rest,
              volleys = v0 :: rest
              /\ Session.start_time s = Volley.start_time v0
              /\ Session.end_time s = Volley.end_time (last rest v0))
        /\ NoDup (Session.participants s)
        /\ (forall x,
              In x (Session.participants s)
              <-> exists v, In v volleys /\ In x (Volley.participants v))
        /\ Session.duration_minutes s
           = (getGapSeconds (Session.start_time s) (Session.end_time s) / 60)%Q
        /\ (0 <= Session.duration_minutes s)%Q).
Proof.
  split.
  - intros ->. eexists. reflexivity.
  - intros s H. destruct volleys as [|v0 rest]; [discriminate|].
    rewrite buildSession_fields in H. injection H as <-.
    cbn [Session.volleys Session.participants Session.start_time
         Session.end_time Session.duration_minutes].
    split; [reflexivity|].
    split; [exists v0, rest; repeat split|].
    split; [apply sortedIds_NoDup|].
    split.
    { intros x. rewrite sortedIds_In.
      exact (in_flat_map Volley.participants (v0 :: rest) x). }
    split; [reflexivity|].
    apply Qle_shift_div_l; [reflexivity|].
    setoid_replace (0 * 60)%Q with 0%Q by ring. apply getGapSeconds_nonneg.
Qed.

Lemma buildSession_session_witness :
  exists v s,
    buildVolley paddedDigest exchangeA = Ok v
    /\ buildSession [v] = Ok s
    /\ NoDup (Session.participants s).
Proof.
  eexists. eexists.
  split; [unfold exchangeA; apply buildVolley_fields|].
  split; [apply buildSession_fields|].
  apply (proj2 (buildSession_session _) _ (buildSession_fields _ [])).
Defined.

(** ** The full pipeline *)

(** X14: what [getFullSegmentation] returns: its turns are those of
    [messagesToTurns], its volleys those of [getVolleys], its sessions those
    of [volleysToSessions]; the sessions partition the volleys, the volleys
    partition the turns, and the turns hold every input message exactly
    once. *)
Theorem getFullSegmentation_layers (sha256 : string -> string)
    (messages : list Message) (r : FullSegmentation) :
  getFullSegmentation sha256 messages = Ok r ->
  messagesToTurns messages None = Ok (fs_turns r)
  /\ getVolleys sha256 messages = Ok (fs_volleys r)
  /\ volleysToSessions (fs_volleys r) None = Ok (fs_sessions r)
  /\ flat_map Session.volleys (fs_sessions r) = fs_volleys r
  /\ flat_map Volley.turns (fs_volleys r) = fs_turns r
  /\ Permutation (flat_map Turn.messages (fs_turns r)) messages.
Proof.
  intros E.
  destruct (messagesToTurns_spec messages None) as (turns & Et & Hflat & _).
  destruct (turnsToVolleys_spec sha256 turns None) as (volleys & Ev & Hvflat & _).
  destruct (volleysToSessions_spec volleys None) as (sessions & Es & Hsflat & _).
  unfold getFullSegmentation in E. rewrite Et in E. cbn [bind] in E.
  rewrite Ev in E. cbn [bind] in E. rewrite Es in E. cbn [bind] in E.
  injection E as <-. cbn [fs_turns fs_volleys fs_sessions].
  split; [exact Et|].
  split.
  { unfold getVolleys. destruct messages as [|m ms].
    - unfold messagesToTurns in Et. simpl in Et. injection Et as <-.
      simpl in Ev. now injection Ev as <-.
    - rewrite Et. exact Ev. }
  split; [exact Es|]. split; [exact Hsflat|]. split; [exact Hvflat|].
  rewrite Hflat. apply sortByTimestamp_permutation.
Qed.

Lemma getFullSegmentation_layers_witness :
  exists r,
    getFullSegmentation paddedDigest scenario = Ok r
    /\ flat_map Session.volleys (fs_sessions r) = fs_volleys r
    /\ flat_map Volley.turns (fs_volleys r) = fs_turns r
    /\ Permutation (flat_map Turn.messages (fs_turns r)) scenario.
Proof.
  assert (H : exists r, getFullSegmentation paddedDigest scenario = Ok r).
  { eexists. vm_compute. reflexivity. }
  destruct H as [r E].
  exists r. split; [exact E|].
  destruct (getFullSegmentation_layers paddedDigest scenario r E)
    as (_ & _ & _ & H1 & H2 & H3).
  split; [exact H1|]. split; [exact H2 | exact H3].
Defined.

(** ** Gaps between dates *)

Lemma getGapSeconds_value (d1 d2 : Z) :
  getGapSeconds d1 d2 == inject_Z (Z.abs (d2 - d1)) / 1000.
Proof. unfold getGapSeconds. reflexivity. Qed.

Lemma getGapSeconds_zero (d1 d2 : Z) : getGapSeconds d1 d2 == 0 <-> d1 = d2.
Proof.
  rewrite getGapSeconds_value. split.
  - intros H.
    assert (E : inject_Z (Z.abs (d2 - d1)) == 0).
    { setoid_replace (inject_Z (Z.abs (d2 - d1)))
        with (inject_Z (Z.abs (d2 - d1)) / 1000 * 1000)%Q by field.
      rewrite H. reflexivity. }
    change 0%Q with (inject_Z 0) in E. rewrite inject_Z_injective in E. lia.
  - intros ->. replace (d2 - d2) with 0 by lia. reflexivity.
Qed.

Lemma getGapSeconds_sym (d1 d2 : Z) : getGapSeconds d1 d2 = getGapSeconds d2 d1.
Proof.
  unfold getGapSeconds.
  replace (Qabs (inject_Z (d2 - d1))) with (Qabs (inject_Z (d1 - d2)));
    [reflexivity|].
  unfold Qabs, inject_Z. f_equal. lia.
Qed.

(** X15: the gap between two dates, in seconds or in days, does not depend
    on their order, is never negative and is 0 exactly for equal dates; two
    dates that are further apart have no smaller gap. *)
Theorem getGapSeconds_symmetric (d1 d2 d3 d4 : Z) :
  getGapSeconds d1 d2 = getGapSeconds d2 d1
  /\ (0 <= getGapSeconds d1 d2)%Q
  /\ (getGapSeconds d1 d2 == 0 <-> d1 = d2)
  /\ (Z.abs (d2 - d1) <= Z.abs (d4 - d3) ->
      (getGapSeconds d1 d2 <= getGapSeconds d3 d4)%Q
      /\ (getGapDays d1 d2 <= getGapDays d3 d4)%Q)
  /\ getGapDays d1 d2 = getGapDays d2 d1
  /\ (0 <= getGapDays d1 d2)%Q
  /\ (getGapDays d1 d2 == 0 <-> d1 = d2).
Proof.
  assert (Hmono : Z.abs (d2 - d1) <= Z.abs (d4 - d3) ->
                  (getGapSeconds d1 d2 <= getGapSeconds d3 d4)%Q).
  { intros H. rewrite !getGapSeconds_value.
    unfold Qdiv. apply Qmult_le_compat_r; [|discriminate].
    now rewrite <- Zle_Qle. }
  split; [apply getGapSeconds_sym|].
  split; [apply getGapSeconds_nonneg|].
  split; [apply getGapSeconds_zero|].
  split.
  { intros H. split; [now apply Hmono|].
    unfold getGapDays, Qdiv. apply Qmult_le_compat_r; [now apply Hmono|].
    discriminate. }
  split; [unfold getGapDays; now rewrite getGapSeconds_sym|].
  split.
  { unfold getGapDays. apply Qle_shift_div_l; [reflexivity|].
    setoid_replace (0 * (24 * 60 * 60))%Q with 0%Q by ring.
    apply getGapSeconds_nonneg. }
  rewrite <- getGapSeconds_zero. unfold getGapDays. split.
  - intros H.
    setoid_replace (getGapSeconds d1 d2)
      with (getGapSeconds d1 d2 / (24 * 60 * 60) * (24 * 60 * 60))%Q by field.
    rewrite H. reflexivity.
  - intros H. rewrite H. reflexivity.
Qed.

Lemma getGapSeconds_symmetric_witness :
  (getGapSeconds 0 30000 <= getGapSeconds 400000 95000)%Q
  /\ (getGapDays 0 30000 <= getGapDays 400000 95000)%Q.
Proof.
  apply (proj1 (proj2 (proj2 (proj2
           (getGapSeconds_symmetric 0 30000 400000 95000))))).
  simpl. lia.
Defined.

(** ** Average and median *)

Lemma fold_sum_nonneg (l : list Q) :
  Forall (fun x => 0 <= x)%Q l ->
  forall acc : Q, (0 <= acc)%Q -> (0 <= fold_left (fun a v => a + v) l acc)%Q.
Proof.
  induction 1 as [|x l Hx Hall IH]; intros acc Hacc; [exact Hacc|].
  cbn [fold_left]. apply IH.
  setoid_replace 0%Q with (0 + 0)%Q by ring. now apply Qplus_le_compat.
Qed.

Lemma fold_sum_nonpos (l : list Q) :
  Forall (fun x => x <= 0)%Q l ->
  forall acc : Q, (acc <= 0)%Q -> (fold_left (fun a v => a + v) l acc <= 0)%Q.
Proof.
  induction 1 as [|x l Hx Hall IH]; intros acc Hacc; [exact Hacc|].
  cbn [fold_left]. apply IH.
  setoid_replace 0%Q with (0 + 0)%Q by ring. now apply Qplus_le_compat.
Qed.

(** X16: the average keeps the sign of the values: of values that are all
    non-negative it is non-negative, of values that are all non-positive it
    is non-positive. The average of the empty list is 0, that of a single
    value is the value. *)
Theorem average_sign (values : list Q) :
  average [] = 0%Q
  /\ (forall x : Q, average [x] == x)
  /\ (Forall (fun x => 0 <= x)%Q values -> (0 <= average values)%Q)
  /\ (Forall (fun x => x <= 0)%Q values -> (average values <= 0)%Q).
Proof.
  split; [reflexivity|].
  split; [intros x; unfold average; cbn; field|].
  assert (Hn : values <> [] ->
               (0 < inject_Z (Z.of_nat (List.length values)))%Q).
  { intros Hne. change 0%Q with (inject_Z 0). rewrite <- Zlt_Qlt.
    destruct values; [congruence | simpl; lia]. }
  split; intros Hall; unfold average;
    (destruct values as [|v vs] eqn:E; [apply Qle_refl|]);
    change (List.length (v :: vs) =? 0)%nat with false; cbv zeta;
    rewrite <- E in *;
    assert (Hne : values <> []) by (rewrite E; discriminate).
  - apply Qle_shift_div_l; [now apply Hn|].
    setoid_replace (0 * inject_Z (Z.of_nat (List.length values)))%Q
      with 0%Q by ring.
    apply fold_sum_nonneg; [exact Hall | apply Qle_refl].
  - apply Qle_shift_div_r; [now apply Hn|].
    setoid_replace (0 * inject_Z (Z.of_nat (List.length values)))%Q
      with 0%Q by ring.
    apply fold_sum_nonpos; [exact Hall | apply Qle_refl].
Qed.

Lemma average_sign_witness :
  (0 <= average [1; 2; 6]%Q)%Q.
Proof.
  apply (proj1 (proj2 (proj2 (average_sign [1; 2; 6]%Q)))).
  repeat constructor; discriminate.
Defined.

Lemma half_sum_between (lo hi a b : Q) :
  (lo <= a /\ a <= hi)%Q -> (lo <= b /\ b <= hi)%Q ->
  (lo <= (a + b) / 2 /\ (a + b) / 2 <= hi)%Q.
Proof.
  intros [Ha1 Ha2] [Hb1 Hb2]. split.
  - apply Qle_shift_div_l; [reflexivity|].
    setoid_replace (lo * 2)%Q with (lo + lo)%Q by ring.
    now apply Qplus_le_compat.
  - apply Qle_shift_div_r; [reflexivity|].
    setoid_replace (hi * 2)%Q with (hi + hi)%Q by ring.
    now apply Qplus_le_compat.
Qed.

(** X17: the median of a non-empty list lies between any lower and upper
    bound of its values, and for an odd number of values it is one of them;
    the median of the empty list is 0. *)
Theorem median_between (values : list Q) (lo hi : Q) :
  (median [] = 0%Q)
  /\ (values <> [] ->
      Forall (fun x => lo <= x /\ x <= hi)%Q values ->
      (lo <= median values <= hi)%Q)
  /\ (List.length values mod 2 = 1 -> In (median values) values)%nat.
Proof.
  split; [reflexivity|].
  assert (Hidx : forall i, (i < List.length values)%nat ->
            In (nth i (JS.sort JS.numericCompare_le values) 0%Q) values).
  { intros i Hi. now apply sorted_nth_In. }
  split.
  - intros Hne Hall. rewrite Forall_forall in Hall. unfold median.
    assert (Hpos : (0 < List.length values)%nat).
    { destruct values; [congruence | simpl; lia]. }
    destruct (List.length values =? 0)%nat eqn:E0;
      [apply Nat.eqb_eq in E0; lia|].
    cbv zeta. rewrite sort_length.
    assert (Hmid : (List.length values / 2 < List.length values)%nat).
    { apply Nat.div_lt; lia. }
    destruct (List.length values mod 2 =? 0)%nat.
    + apply half_sum_between; apply Hall, Hidx; lia.
    + apply Hall, Hidx. exact Hmid.
  - intros Hodd. unfold median.
    assert (Hpos : (0 < List.length values)%nat).
    { destruct values; [simpl in Hodd; discriminate | simpl; lia]. }
    destruct (List.length values =? 0)%nat eqn:E0;
      [apply Nat.eqb_eq in E0; lia|].
    cbv zeta. rewrite sort_length, Hodd. cbn [Nat.eqb].
    apply Hidx. apply Nat.div_lt; lia.
Qed.

Lemma median_between_witness :
  (1 <= median [6; 1; 2; 4]%Q <= 6)%Q.
Proof.
  apply (proj1 (proj2 (median_between [6; 1; 2; 4]%Q 1 6))).
  - discriminate.
  - repeat constructor; discriminate.
Defined.

(** ** Counting occurrences *)

Section CountFacts.
Context {T : Type}.
Variable T_eq_dec : forall x y : T, {x = y} + {x <> y}.

Lemma mapGet_mapSet_same (m : list (T * nat)) (k : T) (v : nat) :
  mapGet T_eq_dec (mapSet T_eq_dec m k v) k = Some v.
Proof.
  induction m as [|[k' v'] m IH]; simpl.
  - destruct (T_eq_dec k k); congruence.
  - destruct (T_eq_dec k' k) as [E | N]; simpl.
    + destruct (T_eq_dec k' k); congruence.
    + destruct (T_eq_dec k' k); [contradiction | exact IH].
Qed.

Lemma mapGet_mapSet_other (m : list (T * nat)) (k k' : T) (v : nat) :
  k <> k' ->
  mapGet T_eq_dec (mapSet T_eq_dec m k v) k' = mapGet T_eq_dec m k'.
Proof.
  intros Hne. induction m as [|[k0 v0] m IH]; simpl.
  - destruct (T_eq_dec k k'); [contradiction | reflexivity].
  - destruct (T_eq_dec k0 k) as [E | N]; simpl.
    + subst k0. destruct (T_eq_dec k k'); [contradiction | reflexivity].
    + destruct (T_eq_dec k0 k'); [reflexivity | exact IH].
Qed.

Lemma mapSet_keys (m : list (T * nat)) (k : T) (v : nat) (x : T) :
  In x (map fst (mapSet T_eq_dec m k v)) <-> x = k \/ In x (map fst m).
Proof.
  induction m as [|[k0 v0] m IH]; simpl.
  - intuition.
  - destruct (T_eq_dec k0 k) as [E | N]; simpl.
    + subst k0. intuition.
    + rewrite IH. intuition.
Qed.

Lemma mapSet_keys_NoDup (m : list (T * nat)) (k : T) (v : nat) :
  NoDup (map fst m) -> NoDup (map fst (mapSet T_eq_dec m k v)).
Proof.
  induction m as [|[k0 v0] m IH]; simpl; intros H.
  - constructor; [intros [] | constructor].
  - inversion H as [|? ? Hn Hm]; subst.
    destruct (T_eq_dec k0 k) as [E | N]; simpl.
    + now constructor.
    + constructor; [|now apply IH].
      rewrite mapSet_keys. intros [E | Hin]; [congruence | contradiction].
Qed.

Lemma mapGet_None_iff (m : list (T * nat)) (k : T) :
  mapGet T_eq_dec m k = None <-> ~ In k (map fst m).
Proof.
  induction m as [|[k0 v0] m IH]; simpl.
  - intuition.
  - destruct (T_eq_dec k0 k) as [E | N].
    + split; [discriminate|]. intros H. exfalso. apply H. now left.
    + rewrite IH. intuition.
Qed.

Lemma mapGet_Some_In (m : list (T * nat)) (k : T) (v : nat) :
  NoDup (map fst m) ->
  (mapGet T_eq_dec m k = Some v <-> In (k, v) m).
Proof.
  induction m as [|[k0 v0] m IH]; simpl; intros H.
  - split; [discriminate | intros []].
  - inversion H as [|? ? Hn Hm]; subst.
    destruct (T_eq_dec k0 k) as [E | N].
    + subst k0. split.
      * intros E. injection E as <-. now left.
      * intros [E | Hin]; [congruence|].
        exfalso. apply Hn. apply in_map_iff. now exists (k, v).
    + rewrite (IH Hm). split; [now right|].
      intros [E | Hin]; [congruence | exact Hin].
Qed.

Lemma mapSet_sum (m : list (T * nat)) (k : T) :
  list_sum (map snd (mapSet T_eq_dec m k (getOrZero T_eq_dec m k + 1)))
  = (list_sum (map snd m) + 1)%nat.
Proof.
  unfold getOrZero. induction m as [|[k0 v0] m IH]; simpl.
  - reflexivity.
  - destruct (T_eq_dec k0 k) as [E | N]; simpl.
    + lia.
    + rewrite IH. lia.
Qed.

Lemma count_fold (items : list T) :
  forall (m : list (T * nat)),
    NoDup (map fst m) ->
    let r := fold_left (countStep T_eq_dec) items m in
    NoDup (map fst r)
    /\ (forall x, getOrZero T_eq_dec r x
                  = (getOrZero T_eq_dec m x + count_occ T_eq_dec items x)%nat)
    /\ (forall x, In x (map fst r) <-> In x (map fst m) \/ In x items)
    /\ list_sum (map snd r) = (list_sum (map snd m) + List.length items)%nat.
Proof.
  induction items as [|i items IH]; intros m Hm; cbn [fold_left].
  - cbv zeta. repeat split; try assumption; simpl; try lia; tauto.
  - destruct (IH (countStep T_eq_dec m i)) as (H1 & H2 & H3 & H4).
    { now apply mapSet_keys_NoDup. }
    cbv zeta in *. split; [exact H1|]. split; [|split].
    + intros x. rewrite H2. unfold countStep at 1. unfold getOrZero at 1.
      cbn [count_occ]. destruct (T_eq_dec i x) as [E | N].
      * subst x. rewrite mapGet_mapSet_same. lia.
      * rewrite mapGet_mapSet_other by exact N. fold (getOrZero T_eq_dec m x). lia.
    + intros x. rewrite H3. unfold countStep. rewrite mapSet_keys.
      simpl. intuition.
    + rewrite H4. unfold countStep. rewrite mapSet_sum. simpl. lia.
Qed.

Lemma countOccurrences_facts (items : list T) :
  let counts := countOccurrences T_eq_dec items in
  NoDup (map fst counts)
  /\ (forall x, getOrZero T_eq_dec counts x = count_occ T_eq_dec items x)
  /\ (forall x, In x (map fst counts) <-> In x items)
  /\ list_sum (map snd counts) = List.length items.
Proof.
  destruct (count_fold items [] (NoDup_nil _)) as (H1 & H2 & H3 & H4).
  cbv zeta in *. unfold countOccurrences.
  split; [exact H1|]. split; [exact H2|]. split; [|exact H4].
  intros x. rewrite H3. simpl. tauto.
Qed.

Lemma countOccurrences_entry (items : list T) (x : T) (c : nat) :
  In (x, c) (countOccurrences T_eq_dec items) ->
  c = count_occ T_eq_dec items x /\ (0 < c)%nat.
Proof.
  destruct (countOccurrences_facts items) as (H1 & H2 & H3 & _).
  cbv zeta in *. intros Hin.
  assert (Hget : mapGet T_eq_dec (countOccurrences T_eq_dec items) x = Some c).
  { now apply mapGet_Some_In. }
  specialize (H2 x). unfold getOrZero in H2. rewrite Hget in H2.
  split; [exact H2|]. rewrite H2.
  apply count_occ_In. apply H3. apply in_map_iff. now exists (x, c).
Qed.

End CountFacts.

(** X18: [countOccurrences] has one entry per distinct item, holding the
    number of times the item occurs; an item that does not occur has no
    entry, and the counts add up to the number of items. *)
Theorem countOccurrences_counts {T : Type}
    (T_eq_dec : forall x y : T, {x = y} + {x <> y}) (items : list T) :
  let counts := countOccurrences T_eq_dec items in
  NoDup (map fst counts)
  /\ (forall x c,
        mapGet T_eq_dec counts x = Some c
        <-> In x items /\ c = count_occ T_eq_dec items x)
  /\ (forall x, mapGet T_eq_dec counts x = None <-> ~ In x items)
  /\ list_sum (map snd counts) = List.length items.
Proof.
  destruct (countOccurrences_facts T_eq_dec items) as (H1 & H2 & H3 & H4).
  cbv zeta in *. split; [exact H1|].
  assert (Hnone : forall x,
            mapGet T_eq_dec (countOccurrences T_eq_dec items) x = None
            <-> ~ In x items).
  { intros x. rewrite mapGet_None_iff. now rewrite H3. }
  split; [|split; [exact Hnone | exact H4]].
  intros x c. split.
  - intros Hget. pose proof Hget as Hin. apply mapGet_Some_In in Hin; [|exact H1].
    destruct (countOccurrences_entry T_eq_dec items x c Hin) as [Hc _].
    split; [|exact Hc]. apply H3. apply in_map_iff. now exists (x, c).
  - intros [Hin ->]. specialize (H2 x). unfold getOrZero in H2.
    destruct (mapGet T_eq_dec (countOccurrences T_eq_dec items) x) as [c|] eqn:E.
    + now rewrite H2.
    + apply Hnone in E. contradiction.
Qed.

(** ** The most frequent items *)

Section TopItemsFacts.
Context {T : Type}.

Lemma topItems_sorted (entries : list (@TopItem T)) :
  StronglySorted byCountDescending
    (JS.sort (fun a b => Z.of_nat (ti_count b) - Z.of_nat (ti_count a) <=? 0)
       entries).
Proof.
  apply Sorted_StronglySorted.
  - intros a b c. unfold byCountDescending. lia.
  - set (c := fun a b : @TopItem T =>
                Z.of_nat (ti_count b) - Z.of_nat (ti_count a) <=? 0).
    assert (H : Sorted (fun a b => c a b = true) (JS.sort c entries)).
    { apply sort_sorted. unfold c. intros a b E.
      apply Z.leb_gt in E. apply Z.leb_le. lia. }
    induction H as [|x l Hs IH Hd]; constructor.
    + exact IH.
    + destruct Hd as [|y l Hxy]; constructor.
      unfold c in Hxy. apply Z.leb_le in Hxy. unfold byCountDescending. lia.
Qed.

Lemma sliceFromStart_prefix {A : Type} (n : Z) (l : list A) :
  exists dropped, l = sliceFromStart n l ++ dropped.
Proof.
  unfold sliceFromStart. eexists. symmetry. apply firstn_skipn.
Qed.

Lemma sliceFromStart_length {A : Type} (n : Z) (l : list A) :
  (0 <= n ->
   List.length (sliceFromStart n l) = Nat.min (Z.to_nat n) (List.length l))
  /\ (n < 0 ->
      List.length (sliceFromStart n l)
      = (List.length l - Z.to_nat (- n))%nat).
Proof.
  unfold sliceFromStart. split; intros Hn; rewrite length_firstn.
  - destruct (Z.ltb_spec n 0); lia.
  - destruct (Z.ltb_spec n 0); lia.
Qed.

End TopItemsFacts.

(** X19: [getTopItems] returns distinct items of the input with their
    number of occurrences and their share of the input in percent, in
    descending order of count; every item it leaves out occurs at most as
    often as every item it returns. It returns [n] entries when there are
    that many distinct items, all of them otherwise; a negative [n] drops
    the [-n] least frequent entries instead. *)
Theorem getTopItems_top {T : Type}
    (T_eq_dec : forall x y : T, {x = y} + {x <> y})
    (items : list T) (n : Z) :
  let r := getTopItems T_eq_dec items n in
  let distinct := List.length (countOccurrences T_eq_dec items) in
  Forall (fun e =>
    In (ti_item e) items
    /\ ti_count e = count_occ T_eq_dec items (ti_item e)
    /\ ti_percentage e
       = (inject_Z (Z.of_nat (ti_count e))
          / inject_Z (Z.of_nat (List.length items)) * 100)%Q) r
  /\ NoDup (map ti_item r)
  /\ StronglySorted (fun a b => (ti_count b <= ti_count a)%nat) r
  /\ (forall x e,
        In x items -> ~ In x (map ti_item r) -> In e r ->
        (count_occ T_eq_dec items x <= ti_count e)%nat)
  /\ (0 <= n -> List.length r = Nat.min (Z.to_nat n) distinct)
  /\ (n < 0 -> List.length r = (distinct - Z.to_nat (- n))%nat).
Proof.
  intros r distinct. subst r distinct. unfold getTopItems.
  set (counts := countOccurrences T_eq_dec items).
  set (toEntry := fun '(item, count) =>
         {| ti_item := item; ti_count := count;
            ti_percentage :=
              if (0 <? List.length items)%nat
              then (inject_Z (Z.of_nat count)
                    / inject_Z (Z.of_nat (List.length items)) * 100)%Q
              else 0%Q |}).
  set (cmp := fun a b : @TopItem T =>
         Z.of_nat (ti_count b) - Z.of_nat (ti_count a) <=? 0).
  set (sorted := JS.sort cmp (map toEntry counts)).
  destruct (countOccurrences_facts T_eq_dec items) as (Hnd & _ & Hkeys & _).
  cbv zeta in Hnd, Hkeys. fold counts in Hnd, Hkeys.
  assert (Hperm : Permutation sorted (map toEntry counts))
    by apply sort_permutation.
  assert (Hitems : map ti_item (map toEntry counts) = map fst counts).
  { rewrite map_map. apply map_ext. now intros [item count]. }
  assert (Hentry : Forall (fun e =>
            In (ti_item e) items
            /\ ti_count e = count_occ T_eq_dec items (ti_item e)
            /\ ti_percentage e
               = (inject_Z (Z.of_nat (ti_count e))
                  / inject_Z (Z.of_nat (List.length items)) * 100)%Q) sorted).
  { apply Permutation_Forall with (map toEntry counts);
      [now apply Permutation_sym|].
    apply Forall_forall. intros e He. apply in_map_iff in He.
    destruct He as ([item count] & <- & Hin).
    destruct (countOccurrences_entry T_eq_dec items item count Hin) as [Hc Hpos].
    assert (Hi : In item items).
    { apply Hkeys. apply in_map_iff. now exists (item, count). }
    cbn. split; [exact Hi|]. split; [exact Hc|].
    destruct items; [contradiction | reflexivity]. }
  assert (Hsnd : NoDup (map ti_item sorted)).
  { apply Permutation_NoDup with (map ti_item (map toEntry counts)).
    - apply Permutation_map. now apply Permutation_sym.
    - now rewrite Hitems. }
  pose proof (topItems_sorted (map toEntry counts)) as Hss.
  fold cmp in Hss. fold sorted in Hss.
  destruct (sliceFromStart_prefix n sorted) as [dropped Hsplit].
  set (r := sliceFromStart n sorted) in *.
  assert (Hlen : List.length sorted = List.length counts).
  { unfold sorted. now rewrite sort_length, length_map. }
  split.
  { rewrite Hsplit in Hentry. now apply Forall_app in Hentry. }
  split.
  { rewrite Hsplit, map_app in Hsnd. now apply NoDup_app_remove_r in Hsnd. }
  rewrite Hsplit in Hss.
  destruct (StronglySorted_app_inv _ _ _ Hss) as (Hr & _ & Hcross).
  split; [exact Hr|].
  split.
  { intros x e Hx Hnot He.
    assert (Hxs : exists ex, In ex sorted /\ ti_item ex = x).
    { apply Hkeys in Hx. rewrite <- Hitems in Hx.
      apply in_map_iff in Hx. destruct Hx as (ex & Ex & Hex).
      exists ex. split; [|exact Ex].
      now apply Permutation_in with (map toEntry counts);
        [apply Permutation_sym|]. }
    destruct Hxs as (ex & Hex & Ex).
    rewrite Forall_forall in Hentry.
    destruct (Hentry ex Hex) as (_ & Hcx & _). rewrite Ex in Hcx.
    rewrite <- Hcx. rewrite Hsplit in Hex. apply in_app_or in Hex.
    destruct Hex as [Hin | Hin].
    - exfalso. apply Hnot. apply in_map_iff. now exists ex.
    - now apply (Hcross e ex). }
  rewrite <- Hlen. unfold r. apply sliceFromStart_length.
Qed.

(** ** The identifier and the order of the participants *)

Lemma sorted_permutation_unique {A : Type} (R : A -> A -> Prop)
    (R_antisym : forall a b, R a b -> R b a -> a = b) (l1 : list A) :
  forall l2,
    StronglySorted R l1 -> StronglySorted R l2 -> Permutation l1 l2 ->
    l1 = l2.
Proof.
  induction l1 as [|a1 l1 IH]; intros l2 S1 S2 P.
  - apply Permutation_nil in P. now subst.
  - destruct l2 as [|a2 l2].
    + apply Permutation_sym, Permutation_nil in P. discriminate.
    + inversion S1 as [|? ? S1' F1]; subst.
      inversion S2 as [|? ? S2' F2]; subst.
      assert (Heq : a1 = a2).
      { assert (I1 : In a1 (a2 :: l2)).
        { apply Permutation_in with (a1 :: l1); [exact P | now left]. }
        assert (I2 : In a2 (a1 :: l1)).
        { apply Permutation_in with (a2 :: l2);
            [now apply Permutation_sym | now left]. }
        destruct I1 as [E | I1]; [now symmetry|].
        destruct I2 as [E | I2]; [exact E|].
        rewrite Forall_forall in F1, F2.
        apply R_antisym; [now apply F1 | now apply F2]. }
      subst a2. f_equal. apply IH; try assumption.
      now apply Permutation_cons_inv with a1.
Qed.

Lemma default_sort_strongly_sorted (ids : list Z) :
  StronglySorted defaultOrder (JS.sort JS.defaultCompare_le ids).
Proof.
  apply Sorted_StronglySorted.
  - intros a b c. apply defaultOrder_trans.
  - apply sort_sorted. apply defaultCompare_total.
Qed.

(** X20: [createVolleyId] does not depend on the order in which the
    participants are passed: two arrays that are permutations of one another
    give the same identifier and are left in the same (sorted) order. The
    array is only reordered, never deduplicated, and the identifier has 16
    characters when the digest has 64. *)
Theorem createVolleyId_order_insensitive (sha256 : string -> string)
    (startTime endTime : Z) (ids1 ids2 : list Z) :
  Permutation ids1 ids2 ->
  createVolleyId sha256 startTime endTime ids1
  = createVolleyId sha256 startTime endTime ids2
  /\ Permutation (fst (createVolleyId sha256 startTime endTime ids1)) ids1
  /\ ((forall s, String.length (sha256 s) = 64%nat) ->
      String.length (snd (createVolleyId sha256 startTime endTime ids1))
      = 16%nat).
Proof.
  intros P. unfold createVolleyId. cbn [fst snd].
  assert (E : JS.sort JS.defaultCompare_le ids1
              = JS.sort JS.defaultCompare_le ids2).
  { apply (sorted_permutation_unique defaultOrder defaultOrder_antisym).
    - apply default_sort_strongly_sorted.
    - apply default_sort_strongly_sorted.
    - apply perm_trans with ids1; [apply sort_permutation|].
      apply perm_trans with ids2; [exact P|].
      apply Permutation_sym, sort_permutation. }
  split; [now rewrite E|].
  split; [apply sort_permutation|].
  intros Hlen. unfold JS.substring. apply substring_prefix_length.
  rewrite Hlen. lia.
Qed.

Lemma createVolleyId_order_insensitive_witness :
  createVolleyId paddedDigest 0 60000 [10; 2; 9]
  = createVolleyId paddedDigest 0 60000 [9; 10; 2].
Proof.
  apply (createVolleyId_order_insensitive paddedDigest 0 60000
           [10; 2; 9] [9; 10; 2]).
  apply perm_trans with [10; 9; 2].
  - apply perm_skip, perm_swap.
  - apply perm_swap.
Defined.

(** ** Response times *)

Lemma responseLoop_nonneg (userId : Z) (rest : list Message) :
  forall prev, Forall (fun h => 0 <= h)%Q (responseLoop userId prev rest).
Proof.
  induction rest as [|curr rest IH]; intros prev; simpl.
  - constructor.
  - destruct ((from_id prev =? userId) && negb (from_id curr =? userId)).
    + constructor; [|apply IH].
      apply Qle_shift_div_l; [reflexivity|].
      setoid_replace (0 * 3600)%Q with 0%Q by ring. apply getGapSeconds_nonneg.
    + apply IH.
Qed.

(** X21: the response time statistics are never negative and the order
    statistics are ordered, 0 <= fastest <= median <= slowest, for every
    message list and user; with fewer than two messages all four are 0.
    (The average is only bounded from below: the code rounds the sum and
    the quotient.) *)
Theorem getResponseTimes_ordered (messages : list Message) (userId : Z) :
  let r := getResponseTimes messages userId in
  (0 <= fastest_hours r)%Q
  /\ (fastest_hours r <= median_hours r <= slowest_hours r)%Q
  /\ (0 <= avg_hours r)%Q
  /\ ((List.length messages < 2)%nat -> r = noResponseTimes).
Proof.
  intros r. subst r. unfold getResponseTimes.
  assert (Hzero : (0 <= fastest_hours noResponseTimes)%Q
            /\ (fastest_hours noResponseTimes <= median_hours noResponseTimes
                <= slowest_hours noResponseTimes)%Q
            /\ (0 <= avg_hours noResponseTimes)%Q).
  { cbn. repeat split; apply Qle_refl. }
  destruct (List.length messages <? 2)%nat eqn:E2.
  { destruct Hzero as (H1 & H2 & H3). repeat split; tauto. }
  apply Nat.ltb_ge in E2. cbv zeta.
  set (times := match sortByTimestamp messages with
                | [] => []
                | m0 :: rest => responseLoop userId m0 rest
                end).
  assert (Hnonneg : Forall (fun h => 0 <= h)%Q times).
  { unfold times. destruct (sortByTimestamp messages); [constructor|].
    apply responseLoop_nonneg. }
  destruct (List.length times =? 0)%nat eqn:E0.
  { destruct Hzero as (H1 & H2 & H3). repeat split; tauto. }
  apply Nat.eqb_neq in E0.
  assert (Hne : times <> []) by (intros E; rewrite E in E0; now apply E0).
  cbn [avg_hours median_hours fastest_hours slowest_hours].
  pose proof (sorted_between_ends times) as Hends. cbv zeta in Hends.
  rewrite Forall_forall in Hends.
  set (sorted := JS.sort JS.numericCompare_le times) in *.
  assert (Hlen : List.length sorted = List.length times) by apply sort_length.
  assert (Hin : forall i, (i < List.length sorted)%nat -> In (nth i sorted 0%Q) times).
  { intros i Hi. apply sorted_nth_In. lia. }
  pose proof Hnonneg as Hall. rewrite Forall_forall in Hnonneg.
  split; [apply Hnonneg, Hin; lia|].
  split.
  { apply Hends. apply nth_In. apply Nat.div_lt; lia. }
  split; [|lia].
  apply Qle_shift_div_l.
  { change 0%Q with (inject_Z 0). rewrite <- Zlt_Qlt. lia. }
  setoid_replace (0 * inject_Z (Z.of_nat (List.length times)))%Q
    with 0%Q by ring.
  apply fold_sum_nonneg; [exact Hall | apply Qle_refl].
Qed.

(** ** Reciprocity of a volley *)

Lemma countMessages_fold (turns : list Turn.t) :
  forall acc,
    fold_left (fun sum t => (sum + List.length (Turn.messages t))%nat) turns acc
    = (acc + List.length (flat_map Turn.messages turns))%nat.
Proof.
  induction turns as [|t turns IH]; intros acc; simpl.
  - lia.
  - rewrite IH, length_app. lia.
Qed.

Lemma countMessages_length (turns : list Turn.t) :
  countMessages turns = List.length (flat_map Turn.messages turns).
Proof. unfold countMessages. now rewrite countMessages_fold. Qed.

Lemma countMessages_split (p : Turn.t -> bool) (turns : list Turn.t) :
  (countMessages (filter p turns)
   + countMessages (filter (fun t => negb (p t)) turns))%nat
  = countMessages turns.
Proof.
  rewrite !countMessages_length.
  induction turns as [|t turns IH]; simpl.
  - reflexivity.
  - destruct (p t); simpl; rewrite !length_app; lia.
Qed.

Lemma ofNat_nonneg (n : nat) : (0 <= ofNat n)%Q.
Proof. unfold ofNat. change 0%Q with (inject_Z 0). rewrite <- Zle_Qle. lia. Qed.

Lemma ofNat_pos (n : nat) : (0 < n)%nat -> (0 < ofNat n)%Q.
Proof.
  intros H. unfold ofNat. change 0%Q with (inject_Z 0). rewrite <- Zlt_Qlt. lia.
Qed.

Lemma ratio_nonneg (a b : nat) : (0 < b)%nat -> (0 <= ofNat a / ofNat b)%Q.
Proof.
  intros Hb. apply Qle_shift_div_l; [now apply ofNat_pos|].
  setoid_replace (0 * ofNat b)%Q with 0%Q by ring. apply ofNat_nonneg.
Qed.

Lemma balance_facts (my their : nat) :
  let balance :=
    if (0 <? my + their)%nat then (ofNat my / ofNat (my + their))%Q
    else (1 # 2)%Q in
  (0 <= balance <= 1)%Q
  /\ ((my + their)%nat = O -> balance = (1 # 2)%Q)
  /\ ((0 < my + their)%nat -> (their = O <-> balance == 1))
  /\ ((0 < my + their)%nat -> (my = O <-> balance == 0)).
Proof.
  cbv zeta. destruct (0 <? my + their)%nat eqn:E.
  - apply Nat.ltb_lt in E. pose proof (ofNat_pos (my + their) E) as Hp.
    assert (Hnz : ~ ofNat (my + their) == 0).
    { intros H0. rewrite H0 in Hp. now apply Qlt_irrefl in Hp. }
    split; [split|split; [lia|split; intros _; split]].
    + now apply ratio_nonneg.
    + apply Qle_shift_div_r; [exact Hp|].
      setoid_replace (1 * ofNat (my + their))%Q with (ofNat (my + their)) by ring.
      unfold ofNat. rewrite <- Zle_Qle. lia.
    + intros ->. rewrite Nat.add_0_r in *. field. exact Hnz.
    + intros H.
      assert (H' : ofNat my == ofNat (my + their)).
      { setoid_replace (ofNat my)
          with (ofNat my / ofNat (my + their) * ofNat (my + their))%Q
          by (field; exact Hnz).
        rewrite H. ring. }
      unfold ofNat in H'. rewrite inject_Z_injective in H'. lia.
    + intros ->. unfold ofNat at 1. simpl. unfold Qdiv. ring.
    + intros H.
      assert (H' : ofNat my == 0).
      { setoid_replace (ofNat my)
          with (ofNat my / ofNat (my + their) * ofNat (my + their))%Q
          by (field; exact Hnz).
        rewrite H. ring. }
      unfold ofNat in H'. change 0%Q with (inject_Z 0) in H'.
      rewrite inject_Z_injective in H'. lia.
  - apply Nat.ltb_ge in E. assert (E0 : (my + their)%nat = O) by lia.
    assert (Em : my = O) by lia. rewrite E0, Em.
    split; [split; discriminate|]. split; [reflexivity|]. split; lia.
Qed.

(** X22: [getVolleyReciprocity] throws exactly for a volley without turns.
    Otherwise the message balance lies between 0 and 1; it is one half when
    the volley has no message at all, and of a volley with messages it is 1
    exactly when all of them stand in the user's turns and 0 exactly when
    none does. The initiation balance is 1 when the first turn is the user's
    and 0 when it is not, and the average turn lengths are never negative. *)
Theorem getVolleyReciprocity_balance (volley : Volley.t) (userId : Z) :
  ((exists e, getVolleyReciprocity volley userId = Throw e)
   <-> Volley.turns volley = [])
  /\ (forall r,
        getVolleyReciprocity volley userId = Ok r ->
        let mine :=
          flat_map Turn.messages
            (filter (fun t => Turn.sender_id t =? userId) (Volley.turns volley)) in
        let theirs :=
          flat_map Turn.messages
            (filter (fun t => negb (Turn.sender_id t =? userId))
               (Volley.turns volley)) in
        (0 <= message_balance r <= 1)%Q
        /\ (flat_map Turn.messages (Volley.turns volley) = [] ->
            message_balance r = (1 # 2)%Q)
        /\ (flat_map Turn.messages (Volley.turns volley) <> [] ->
            (theirs = [] <-> message_balance r == 1)
            /\ (mine = [] <-> message_balance r == 0))
        /\ (exists t0 rest,
              Volley.turns volley = t0 :: rest
              /\ initiation_balance r
                 = if Turn.sender_id t0 =? userId then 1%Q else 0%Q)
        /\ (0 <= avg_turn_length_me r)%Q
        /\ (0 <= avg_turn_length_them r)%Q).
Proof.
  unfold getVolleyReciprocity.
  remember (Volley.turns volley) as turns eqn:Et.
  set (mine := filter (fun t => Turn.sender_id t =? userId) turns).
  set (theirs := filter (fun t => negb (Turn.sender_id t =? userId)) turns).
  assert (Htotal : (countMessages mine + countMessages theirs)%nat
                   = List.length (flat_map Turn.messages turns)).
  { unfold mine, theirs.
    rewrite (countMessages_split (fun t => Turn.sender_id t =? userId)).
    apply countMessages_length. }
  pose proof (countMessages_length mine) as Hmine.
  pose proof (countMessages_length theirs) as Htheirs.
  clearbody mine theirs.
  destruct turns as [|t0 rest].
  { split.
    - split; [reflexivity | intros _; eexists; reflexivity].
    - intros r H. discriminate. }
  split.
  { split; [intros [e He]; discriminate | discriminate]. }
  intros r H. injection H as <-. cbv zeta.
  cbn [initiation_balance message_balance avg_turn_length_me avg_turn_length_them].
  destruct (balance_facts (countMessages mine) (countMessages theirs))
    as (B1 & B2 & B3 & B4).
  cbv zeta in B1, B2, B3, B4.
  split; [exact B1|].
  split.
  { intros Hnone. apply B2. rewrite Htotal, Hnone. reflexivity. }
  split.
  { intros Hsome.
    assert (Hpos : (0 < countMessages mine + countMessages theirs)%nat).
    { rewrite Htotal.
      destruct (flat_map Turn.messages (t0 :: rest)); [congruence | simpl; lia]. }
    specialize (B3 Hpos). specialize (B4 Hpos).
    assert (E : (0 <? countMessages mine + countMessages theirs)%nat = true)
      by now apply Nat.ltb_lt.
    rewrite E in *.
    split.
    - rewrite <- B3, Htheirs. split.
      + intros ->. reflexivity.
      + apply length_zero_iff_nil.
    - rewrite <- B4, Hmine. split.
      + intros ->. reflexivity.
      + apply length_zero_iff_nil. }
  split; [exists t0, rest; split; reflexivity|].
  split.
  - destruct (0 <? List.length mine)%nat eqn:E; [|apply Qle_refl].
    apply Nat.ltb_lt in E. now apply ratio_nonneg.
  - destruct (0 <? List.length theirs)%nat eqn:E; [|apply Qle_refl].
    apply Nat.ltb_lt in E. now apply ratio_nonneg.
Qed.

Lemma getVolleyReciprocity_balance_witness :
  exists r,
    getVolleyReciprocity volleyOverExchangeB 1 = Ok r
    /\ (0 <= message_balance r <= 1)%Q.
Proof.
  eexists. split; [reflexivity|].
  apply (proj2 (getVolleyReciprocity_balance volleyOverExchangeB 1) _ eq_refl).
Defined.
